(** * what_if.py: missing the best and worst trading days

    A shallow embedding of [what_if_miss_ten_best_worst_days/what_if.py]
    and the properties of its three routines: [validate_header],
    [find_days] and [perf_if_missing_days].

    Modelling conventions.
    - Python [float] values are modelled as exact rationals [Q]; the
      string-to-float conversion [float(day["close"])] is taken as done,
      so a data row is a record of a date string and two rationals.
      Numeric equality ([==] on floats) is [Qeq].
    - A [csv.DictReader] positioned after the header is the list of the
      rows it has still to yield; [next] takes the head and raises
      [StopIteration] on the empty list.
    - Exceptions are the constructors of [exn]; a function that can raise
      returns a [result]. *)

From Stdlib Require Import QArith Qround ZArith String Ascii List.
From stdpp Require Import gmap strings list sorting.

Local Open Scope string_scope.
Local Open Scope list_scope.

(** ** Exceptions and the error monad *)

Inductive exn : Type :=
  | StopIteration
  | ZeroDivisionError
  | ValueError
  | AttributeError
  | IndexError.

Inductive result (A : Type) : Type :=
  | Ok (a : A)
  | Raise (e : exn).
Arguments Ok {A} a.
Arguments Raise {A} e.

#[global] Instance result_ret : MRet result := fun _ a => Ok a.
#[global] Instance result_bind : MBind result := fun _ _ f c =>
  match c with
  | Ok a => f a
  | Raise e => Raise e
  end.

Definition is_ok {A} (c : result A) : bool :=
  match c with Ok _ => true | Raise _ => false end.

(** ** Floats as rationals *)

Definition Qltb (x y : Q) : bool := negb (Qle_bool y x).

(** [x / y] on Python floats raises on a zero divisor. *)
Definition fdiv (x y : Q) : result Q :=
  if Qeq_bool y 0 then Raise ZeroDivisionError else Ok (x / y)%Q.

(** ** Data *)

(** A data row of the price file, with the fields the program reads. *)
Record Row : Type := mkRow {
  row_date : string;
  row_open : Q;
  row_close : Q
}.

(** [DayPerf = namedtuple("DayPerf", ["date", "change_percentage"])] *)
Record DayPerf : Type := mkDayPerf {
  date : string;
  change_percentage : Q
}.

(** ** [find_days] *)

(** [list.sort(key=lambda x: x[1], reverse=find_best)]: Python's sort is
    stable, also under [reverse=True]; a stable sort is determined by the
    key order, so a stable insertion sort computes the same list.
    [ranks_before find_best x y] says that key [x] comes strictly before
    key [y] in the direction of the sort. *)
Definition ranks_before (find_best : bool) (x y : Q) : bool :=
  if find_best then Qltb y x else Qltb x y.

Fixpoint insert_stable (find_best : bool) (x : DayPerf) (l : list DayPerf)
  : list DayPerf :=
  match l with
  | [] => [x]
  | y :: l' =>
      if ranks_before find_best (change_percentage y) (change_percentage x)
      then y :: insert_stable find_best x l'
      else x :: y :: l'
  end.

Fixpoint sort_by_change (find_best : bool) (l : list DayPerf) : list DayPerf :=
  match l with
  | [] => []
  | x :: l' => insert_stable find_best x (sort_by_change find_best l')
  end.

(** [chosen_days[-1]] *)
Definition last_item (l : list DayPerf) : result DayPerf :=
  match last l with
  | Some p => Ok p
  | None => Raise IndexError
  end.

(** [(float(day["close"]) - last_closing_price) / last_closing_price] *)
Definition day_change (close_price last_closing_price : Q) : result Q :=
  fdiv (close_price - last_closing_price) last_closing_price.

(** The loop "Fill up best_days with first n days": [k] iterations, each
    taking one row from the reader. The state is the reader, the chosen
    days and the running reference price. *)
Fixpoint fill_days (k : nat) (reader : list Row) (chosen_days : list DayPerf)
    (last_closing_price : Q) : result (list Row * list DayPerf * Q) :=
  match k with
  | O => Ok (reader, chosen_days, last_closing_price)
  | S k' =>
      match reader with
      | [] => Raise StopIteration
      | day :: reader' =>
          pct ← day_change (row_close day) last_closing_price;
          fill_days k' reader'
            (chosen_days ++ [mkDayPerf (row_date day) pct])
            (row_close day)
      end
  end.

(** The test "Skip days when performance isn't in top n days". *)
Definition skip_day (find_best : bool) (pct : Q) (boundary : DayPerf) : bool :=
  if find_best then Qltb pct (change_percentage boundary)
  else Qltb (change_percentage boundary) pct.

(** One iteration of the loop "Go through all days to find the
    best/worst"; the state is the chosen days and the running reference. *)
Definition scan_day (find_best : bool) (st : list DayPerf * Q) (day : Row)
  : result (list DayPerf * Q) :=
  let '(chosen_days, last_closing_price) := st in
  pct ← day_change (row_close day) last_closing_price;
  let last_closing_price := row_close day in
  boundary ← last_item chosen_days;
  if skip_day find_best pct boundary
  then Ok (chosen_days, last_closing_price)
  else
    let appended := chosen_days ++ [mkDayPerf (row_date day) pct] in
    Ok (removelast (sort_by_change find_best appended), last_closing_price).

Fixpoint scan_days (find_best : bool) (reader : list Row)
    (st : list DayPerf * Q) : result (list DayPerf * Q) :=
  match reader with
  | [] => Ok st
  | day :: reader' =>
      st' ← scan_day find_best st day;
      scan_days find_best reader' st'
  end.

Definition find_days (data_dict_reader : list Row) (n : Z) (find_best : bool)
  : result (list DayPerf) :=
  if (n =? 0)%Z then Ok []
  else
    match data_dict_reader with
    | [] => Raise StopIteration
    | first_day :: reader =>
        pct ← fdiv (row_close first_day - row_open first_day)
                   (row_open first_day);
        let chosen_days := [mkDayPerf (row_date first_day) pct] in
        let last_closing_price := row_open first_day in
        '(reader, chosen_days, last_closing_price) ←
          fill_days (Z.to_nat (n - 1)) reader chosen_days last_closing_price;
        '(chosen_days, _) ←
          scan_days find_best reader (chosen_days, last_closing_price);
        Ok chosen_days
    end.

(** ** [perf_if_missing_days] *)

(** The state of the replay loop: the running [value], the flag
    [missed_yesterday] and [last_close_price]. *)
Record Replay : Type := mkReplay {
  value : Q;
  missed_yesterday : bool;
  last_close_price : Q
}.

(** One iteration of [for day in data_dict_reader] (lines 81-94). *)
Definition replay_day (missed_days_dates : gset string) (st : Replay)
    (day : Row) : Replay :=
  let is_missed := bool_decide (row_date day ∈ missed_days_dates) in
  let value1 :=
    if missed_yesterday st && negb is_missed
    then (value st - row_open day)%Q
    else value st in
  if is_missed
  then mkReplay (value1 + last_close_price st)%Q true (row_close day)
  else mkReplay value1 false (row_close day).

Definition replay (missed_days_dates : gset string) (reader : list Row)
    (st : Replay) : Replay :=
  foldl (replay_day missed_days_dates) st reader.

(** [set([missed_day.date for missed_day in missed_days])] *)
Definition dates_of (missed_days : list DayPerf) : gset string :=
  list_to_set (map date missed_days).

(** The running value after line 96, given the set of missed dates. *)
Definition final_value (missed_days_dates : gset string) (first_day : Row)
    (reader : list Row) : Q :=
  let st := replay missed_days_dates reader
              (mkReplay 0 false (row_close first_day)) in
  (value st + last_close_price st)%Q.

(** The function prints two fractions; the model returns them:
    [(total_changed_percentage, changed_percentage_if_missing_days)]. *)
Definition perf_with_dates (data_dict_reader : list Row)
    (missed_days_dates : gset string) : result (Q * Q) :=
  match data_dict_reader with
  | [] => Raise StopIteration
  | first_day :: reader =>
      let open_price := row_open first_day in
      let st := replay missed_days_dates reader
                  (mkReplay 0 false (row_close first_day)) in
      let value := (value st + last_close_price st)%Q in
      let total_changed_value := (last_close_price st - open_price)%Q in
      total_changed_percentage ← fdiv total_changed_value open_price;
      let changed_value_if_missing_days := (value - open_price)%Q in
      changed_percentage_if_missing_days ←
        fdiv changed_value_if_missing_days open_price;
      Ok (total_changed_percentage, changed_percentage_if_missing_days)
  end.

Definition perf_if_missing_days (data_dict_reader : list Row)
    (missed_days : list DayPerf) : result (Q * Q) :=
  perf_with_dates data_dict_reader (dates_of missed_days).

(** ** [validate_header] *)

Definition CSV_FIELD_NAMES : list string :=
  ["date"; "open"; "high"; "low"; "close"; "adj close"; "volume"].

(** A value of a [DictReader] row: a field of the line, [None] for a field
    the line does not have ([restval]), or the list of the surplus fields
    (stored under the key [restkey = None]). *)
Inductive cell : Type :=
  | CStr (s : string)
  | CNone
  | CList (l : list string).

(** A Python dict in iteration (insertion) order; a key is a field name
    or [None]. *)
Definition pydict : Type := list (option string * cell).

(** The row [csv.DictReader(f, fieldnames=...)] builds from the fields of
    a line: the names zipped with the fields, then the surplus fields
    under [None], or [None] under each name that got no field. *)
Definition dict_reader_row (fieldnames : list string) (fields : list string)
  : pydict :=
  zip (map Some fieldnames) (map CStr fields)
  ++ (if (length fieldnames <? length fields)%nat
      then [(None, CList (drop (length fieldnames) fields))]
      else map (fun key => (Some key, CNone)) (drop (length fields) fieldnames)).

(** [str.lower] on ASCII text: the letters A-Z are lowered, every other
    character is kept. Python lowers non-ASCII letters too; the only one
    whose lowercase is an ASCII letter is the Kelvin sign, which gives k,
    a letter no expected name has, so a header line is accepted by the
    program exactly when it is accepted here. *)
Definition lower_char (c : ascii) : ascii :=
  let n := N_of_ascii c in
  if ((65 <=? n) && (n <=? 90))%N then ascii_of_N (n + 32) else c.

Fixpoint lower (s : string) : string :=
  match s with
  | EmptyString => EmptyString
  | String c s' => String (lower_char c) (lower s')
  end.

(** [actual_name.lower()]: only a string has the method. *)
Definition call_lower (actual_name : cell) : result string :=
  match actual_name with
  | CStr s => Ok (lower s)
  | CNone | CList _ => Raise AttributeError
  end.

Fixpoint validate_header (header_row : pydict) : result unit :=
  match header_row with
  | [] => Ok tt
  | (expected_name, actual_name) :: items =>
      lower_actual_name ← call_lower actual_name;
      if bool_decide (expected_name ≠ Some lower_actual_name)
      then Raise ValueError
      else validate_header items
  end.

(** The header as [analyze] reads it (lines 110-114). *)
Definition validate_header_line (fields : list string) : result unit :=
  validate_header (dict_reader_row CSV_FIELD_NAMES fields).

(** ** Reference definitions, following the specification *)

(** The data model's invariant on a record: positive prices. *)
Definition wf_row (day : Row) : Prop :=
  (0 < row_open day)%Q ∧ (0 < row_close day)%Q.

(** The reference price of the record at index [i] (from 0): the first
    record's open for the first two records, the preceding record's close
    from the third on. *)
Definition reference_price (rows : list Row) (i : nat) : Q :=
  match i with
  | O | S O => from_option row_open 0%Q (rows !! O)
  | S (S _ as j) => from_option row_close 0%Q (rows !! j)
  end.

Definition change_at (rows : list Row) (i : nat) : option DayPerf :=
  day ← rows !! i;
  Some (mkDayPerf (row_date day)
          ((row_close day - reference_price rows i) / reference_price rows i)%Q).

(** The day performances of a whole series under the running-reference
    rule, as one pass with the reference carried along. *)
Fixpoint changes_from (reference : Q) (rows : list Row) : list DayPerf :=
  match rows with
  | [] => []
  | day :: rows' =>
      mkDayPerf (row_date day) ((row_close day - reference) / reference)%Q
      :: changes_from (row_close day) rows'
  end.

Definition changes (rows : list Row) : list DayPerf :=
  match rows with
  | [] => []
  | first_day :: rows' =>
      mkDayPerf (row_date first_day)
        ((row_close first_day - row_open first_day) / row_open first_day)%Q
      :: changes_from (row_open first_day) rows'
  end.

(** The brute-force selection: rank every day of the series, keep [k]. *)
Definition top_k (find_best : bool) (k : nat) (rows : list Row) : list DayPerf :=
  take k (sort_by_change find_best (changes rows)).

(** The list is in the direction of the mode: no entry ranks strictly
    before an earlier one. *)
Definition in_order (find_best : bool) (x y : DayPerf) : Prop :=
  ranks_before find_best (change_percentage y) (change_percentage x) = false.

Definition sorted_by_change (find_best : bool) (l : list DayPerf) : Prop :=
  StronglySorted (in_order find_best) l.

(** Insertion of a newly appended entry into a list in order: before the
    first entry it ranks strictly before, so after every entry it ties. *)
Fixpoint insert_back (find_best : bool) (p : DayPerf) (l : list DayPerf)
  : list DayPerf :=
  match l with
  | [] => [p]
  | y :: l' =>
      if ranks_before find_best (change_percentage p) (change_percentage y)
      then p :: y :: l'
      else y :: insert_back find_best p l'
  end.

(** ** Example series *)

(** The worked scenario of the specification. *)
Definition scenario : list Row :=
  [mkRow "d1" 100 110; mkRow "d2" 110 90; mkRow "d3" 90 120].

(** Changes 0.1, 0.5, 0.3: the second seed is larger than the first. *)
Definition rising : list Row :=
  [mkRow "d1" 100 110; mkRow "d2" 110 150; mkRow "d3" 150 195].

(** Changes 0.5, 0.1, 0.3, 0.3: the fourth day ties the third. *)
Definition tying : list Row :=
  [mkRow "d1" 1000 1500; mkRow "d2" 1500 1100; mkRow "d3" 1100 1430;
   mkRow "d4" 1430 1859].

(** Four days, each opening at the previous close. *)
Definition steady : list Row :=
  [mkRow "d1" 100 110; mkRow "d2" 110 120; mkRow "d3" 120 130;
   mkRow "d4" 130 140].

(** ** [analyze] *)

(** The price file as [csv] splits it: nothing for an empty file,
    otherwise the fields of the header line and the data rows. The three
    passes over the file ([f.seek(0)], then skipping the header) read the
    same rows. *)
Definition analyze (file : option (list string * list Row))
    (num_best_days_to_miss num_worst_days_to_miss : Z) : result (Q * Q) :=
  match file with
  | None => Raise StopIteration
  | Some (header, rows) =>
      _ ← validate_header_line header;
      best_days ← find_days rows num_best_days_to_miss true;
      worst_days ← find_days rows num_worst_days_to_miss false;
      let days_to_miss := best_days ++ worst_days in
      perf_if_missing_days rows days_to_miss
  end.

(** ** Further reference definitions *)

(** The reference price each record's change is divided by, in the order
    of the series. *)
Fixpoint references_from (reference : Q) (rows : list Row) : list Q :=
  match rows with
  | [] => []
  | day :: rows' => reference :: references_from (row_close day) rows'
  end.

Definition references (rows : list Row) : list Q :=
  match rows with
  | [] => []
  | first_day :: rows' =>
      row_open first_day :: references_from (row_open first_day) rows'
  end.

Definition nonzero (q : Q) : Prop := ¬ (q == 0)%Q.

(** [q] is at least as good a pick as [p] in the mode: no smaller when
    looking for the best days, no larger when looking for the worst. *)
Definition at_least_as_extreme (find_best : bool) (q p : DayPerf) : Prop :=
  if find_best
  then (change_percentage p <= change_percentage q)%Q
  else (change_percentage q <= change_percentage p)%Q.

(** Every entry seen has an entry of the working set that ranks at least
    as well. *)
Definition covered (find_best : bool) (seen chosen : list DayPerf) : Prop :=
  ∀ p, p ∈ seen → ∃ q, q ∈ chosen ∧ in_order find_best q p.

Definition Qsum (l : list Q) : Q := foldr Qplus 0%Q l.

(** The close the replay carries after the rows of [reader]. *)
Definition closing (first_close : Q) (reader : list Row) : Q :=
  from_option row_close first_close (last reader).

(** ** [find_days] with rounded arithmetic *)

(** Every float operation returns its exact result rounded to a float.
    With [fl] that rounding, left open, the functions below are
    [find_days] again with each subtraction and division rounded; with
    the identity for [fl] they are the functions above. What is proved
    for every [fl] holds for the rounding of the machine. *)
Section rounded.
Variable fl : Q → Q.

Definition day_change_fl (close_price last_closing_price : Q) : result Q :=
  if Qeq_bool last_closing_price 0 then Raise ZeroDivisionError
  else Ok (fl (fl (close_price - last_closing_price) / last_closing_price))%Q.

Fixpoint fill_days_fl (k : nat) (reader : list Row)
    (chosen_days : list DayPerf) (last_closing_price : Q)
  : result (list Row * list DayPerf * Q) :=
  match k with
  | O => Ok (reader, chosen_days, last_closing_price)
  | S k' =>
      match reader with
      | [] => Raise StopIteration
      | day :: reader' =>
          pct ← day_change_fl (row_close day) last_closing_price;
          fill_days_fl k' reader'
            (chosen_days ++ [mkDayPerf (row_date day) pct])
            (row_close day)
      end
  end.

Definition scan_day_fl (find_best : bool) (st : list DayPerf * Q) (day : Row)
  : result (list DayPerf * Q) :=
  let '(chosen_days, last_closing_price) := st in
  pct ← day_change_fl (row_close day) last_closing_price;
  let last_closing_price := row_close day in
  boundary ← last_item chosen_days;
  if skip_day find_best pct boundary
  then Ok (chosen_days, last_closing_price)
  else
    let appended := chosen_days ++ [mkDayPerf (row_date day) pct] in
    Ok (removelast (sort_by_change find_best appended), last_closing_price).

Fixpoint scan_days_fl (find_best : bool) (reader : list Row)
    (st : list DayPerf * Q) : result (list DayPerf * Q) :=
  match reader with
  | [] => Ok st
  | day :: reader' =>
      st' ← scan_day_fl find_best st day;
      scan_days_fl find_best reader' st'
  end.

Definition find_days_fl (data_dict_reader : list Row) (n : Z)
    (find_best : bool) : result (list DayPerf) :=
  if (n =? 0)%Z then Ok []
  else
    match data_dict_reader with
    | [] => Raise StopIteration
    | first_day :: reader =>
        pct ← day_change_fl (row_close first_day) (row_open first_day);
        let chosen_days := [mkDayPerf (row_date first_day) pct] in
        let last_closing_price := row_open first_day in
        '(reader, chosen_days, last_closing_price) ←
          fill_days_fl (Z.to_nat (n - 1)) reader chosen_days
            last_closing_price;
        '(chosen_days, _) ←
          scan_days_fl find_best reader (chosen_days, last_closing_price);
        Ok chosen_days
    end.

(** The day performances as the rounded arithmetic computes them. *)
Definition computed (day : Row) (reference : Q) : DayPerf :=
  mkDayPerf (row_date day)
    (fl (fl (row_close day - reference) / reference))%Q.

Fixpoint changes_from_fl (reference : Q) (rows : list Row) : list DayPerf :=
  match rows with
  | [] => []
  | day :: rows' =>
      computed day reference :: changes_from_fl (row_close day) rows'
  end.

Definition changes_fl (rows : list Row) : list DayPerf :=
  match rows with
  | [] => []
  | first_day :: rows' =>
      computed first_day (row_open first_day)
      :: changes_from_fl (row_open first_day) rows'
  end.

(** The brute-force selection over the computed changes. *)
Definition top_k_fl (find_best : bool) (k : nat) (rows : list Row)
  : list DayPerf :=
  take k (sort_by_change find_best (changes_fl rows)).

End rounded.

(** A coarse rounding, to whole numbers, under which close changes
    collide as close quotients do in floats. *)
Definition to_whole (q : Q) : Q := inject_Z (Qfloor q).

(** Lines 56-66 on a computed performance: the skip test, then the
    append, sort and pop. *)
Definition offer (find_best : bool) (chosen_days : list DayPerf)
    (candidate : DayPerf) : result (list DayPerf) :=
  boundary ← last_item chosen_days;
  if skip_day find_best (change_percentage candidate) boundary
  then Ok chosen_days
  else Ok (removelast (sort_by_change find_best (chosen_days ++ [candidate]))).

(** ** Auxiliary facts *)

Section result_facts.
Context {A B : Type}.

Lemma bind_ok (c : result A) (f : A → result B) (b : B) :
  c ≫= f = Ok b → ∃ a, c = Ok a ∧ f a = Ok b.
Proof. destruct c as [a|e]; simpl; [eauto | discriminate]. Qed.

End result_facts.

Lemma Qltb_lt (x y : Q) : Qltb x y = true ↔ (x < y)%Q.
Proof.
  unfold Qltb. rewrite negb_true_iff, <- not_true_iff_false, Qle_bool_iff.
  split; [apply Qnot_le_lt | apply Qlt_not_le].
Qed.

Lemma Qltb_ge (x y : Q) : Qltb x y = false ↔ (y <= x)%Q.
Proof. unfold Qltb. by rewrite negb_false_iff, Qle_bool_iff. Qed.

Lemma fdiv_ok (x y : Q) : ¬ (y == 0)%Q → fdiv x y = Ok (x / y)%Q.
Proof.
  intros Hy. unfold fdiv. destruct (Qeq_bool y 0) eqn:E; [|done].
  by apply Qeq_bool_iff in E.
Qed.

Lemma fdiv_inv (x y q : Q) : fdiv x y = Ok q → q = (x / y)%Q ∧ ¬ (y == 0)%Q.
Proof.
  unfold fdiv. destruct (Qeq_bool y 0) eqn:E; [done|].
  intros [= <-]. split; [done|]. intros Hy. apply Qeq_bool_iff in Hy. congruence.
Qed.

Lemma Qpos_nonzero (y : Q) : (0 < y)%Q → ¬ (y == 0)%Q.
Proof. intros Hy E. rewrite E in Hy. by apply Qlt_irrefl in Hy. Qed.

(** *** The stable sort *)

Lemma insert_stable_perm b x l : insert_stable b x l ≡ₚ x :: l.
Proof.
  induction l as [|y l IH]; simpl; [done|].
  destruct (ranks_before _ _ _); [|done].
  by rewrite IH, Permutation_swap.
Qed.

Lemma sort_by_change_perm b l : sort_by_change b l ≡ₚ l.
Proof.
  induction l as [|x l IH]; simpl; [done|].
  by rewrite insert_stable_perm, IH.
Qed.

Lemma sort_by_change_length b l : length (sort_by_change b l) = length l.
Proof. by rewrite (sort_by_change_perm b l). Qed.

Lemma removelast_submseteq {A} (l : list A) : removelast l ⊆+ l.
Proof.
  induction l as [|x [|y l] IH]; simpl; [done| |].
  - apply submseteq_nil_l.
  - by apply submseteq_skip.
Qed.

Lemma removelast_snoc_length {A} (l : list A) :
  l ≠ [] → length (removelast l) = pred (length l).
Proof.
  induction l as [|x [|y l] IH]; simpl; [done|done|].
  intros _. simpl in IH. by rewrite IH.
Qed.

(** *** The two loops of [find_days] *)

Lemma fill_days_inv k reader chosen last reader' chosen' last' :
  fill_days k reader chosen last = Ok (reader', chosen', last') →
  (k ≤ length reader)%nat ∧ reader' = drop k reader ∧
  chosen' = chosen ++ changes_from last (take k reader) ∧
  changes_from last reader
    = changes_from last (take k reader) ++ changes_from last' reader'.
Proof.
  revert reader chosen last.
  induction k as [|k IH]; intros reader chosen last; simpl.
  - intros [= <- <- <-]. rewrite app_nil_r. repeat split; lia.
  - destruct reader as [|day reader]; [done|].
    intros H. apply bind_ok in H as (pct & Hpct & H).
    apply fdiv_inv in Hpct as [-> _].
    apply IH in H as (Hk & -> & -> & Hch). simpl.
    repeat split; [lia | by rewrite <- app_assoc | by rewrite Hch].
Qed.

Lemma scan_day_inv b chosen last day chosen' last' :
  scan_day b (chosen, last) day = Ok (chosen', last') →
  last' = row_close day ∧ length chosen' = length chosen ∧
  chosen' ⊆+ chosen ++ changes_from last [day].
Proof.
  unfold scan_day. intros H.
  apply bind_ok in H as (pct & Hpct & H).
  apply fdiv_inv in Hpct as [-> _].
  apply bind_ok in H as (boundary & Hb & H).
  destruct (skip_day _ _ _).
  - injection H as <- <-. repeat split. by apply submseteq_inserts_r.
  - injection H as <- <-. split; [done|]. split.
    + rewrite removelast_snoc_length.
      * rewrite sort_by_change_length, length_app. simpl. lia.
      * intros E. apply (f_equal length) in E.
        rewrite sort_by_change_length, length_app in E. simpl in E. lia.
    + etrans; [apply removelast_submseteq|].
      by rewrite sort_by_change_perm.
Qed.

Lemma scan_days_inv b reader chosen last chosen' last' :
  scan_days b reader (chosen, last) = Ok (chosen', last') →
  length chosen' = length chosen ∧
  chosen' ⊆+ chosen ++ changes_from last reader.
Proof.
  revert chosen last.
  induction reader as [|day reader IH]; intros chosen last; simpl.
  - intros [= <- <-]. by rewrite app_nil_r.
  - intros H. apply bind_ok in H as ([chosen1 last1] & H1 & H).
    apply scan_day_inv in H1 as (-> & Hlen & Hsub).
    apply IH in H as (Hlen' & Hsub'). split; [congruence|].
    etrans; [exact Hsub'|]. simpl in Hsub.
    rewrite (cons_middle _ chosen), app_assoc.
    by apply submseteq_app.
Qed.

Lemma fill_days_succeeds k reader chosen last :
  Forall wf_row reader → (0 < last)%Q → (k ≤ length reader)%nat →
  ∃ chosen' last',
    fill_days k reader chosen last = Ok (drop k reader, chosen', last') ∧
    (0 < last')%Q.
Proof.
  revert reader chosen last.
  induction k as [|k IH]; intros reader chosen last Hwf Hlast Hk; simpl.
  - eauto.
  - destruct reader as [|day reader]; simpl in Hk; [lia|].
    apply Forall_cons in Hwf as [[_ Hclose] Hwf].
    unfold day_change. rewrite fdiv_ok by by apply Qpos_nonzero. simpl.
    apply IH; [done..|lia].
Qed.

Lemma fill_days_short k reader chosen last :
  Forall wf_row reader → (0 < last)%Q → (length reader < k)%nat →
  fill_days k reader chosen last = Raise StopIteration.
Proof.
  revert reader chosen last.
  induction k as [|k IH]; intros reader chosen last Hwf Hlast Hk; [lia|].
  destruct reader as [|day reader]; simpl in *; [done|].
  apply Forall_cons in Hwf as [[_ Hclose] Hwf].
  unfold day_change. rewrite fdiv_ok by by apply Qpos_nonzero. simpl.
  apply IH; [done..|lia].
Qed.

Lemma fill_days_short_fails k reader chosen last :
  (length reader < k)%nat → is_ok (fill_days k reader chosen last) = false.
Proof.
  revert reader chosen last.
  induction k as [|k IH]; intros reader chosen last Hk; [lia|].
  destruct reader as [|day reader]; simpl in *; [done|].
  destruct (day_change _ _); simpl; [|done]. apply IH. lia.
Qed.

Lemma scan_days_succeeds b reader chosen ref :
  Forall wf_row reader → (0 < ref)%Q → chosen ≠ [] →
  ∃ st, scan_days b reader (chosen, ref) = Ok st.
Proof.
  revert chosen ref.
  induction reader as [|day reader IH]; intros chosen ref Hwf Href Hne;
    [simpl; eauto|].
  change (scan_days b (day :: reader) (chosen, ref))
    with (scan_day b (chosen, ref) day ≫= scan_days b reader).
  apply Forall_cons in Hwf as [[_ Hclose] Hwf].
  assert (∃ chosen', scan_day b (chosen, ref) day = Ok (chosen', row_close day))
    as [chosen' Hday].
  { unfold scan_day, day_change. rewrite fdiv_ok by by apply Qpos_nonzero.
    simpl. unfold last_item. destruct (last chosen) eqn:E.
    - simpl. destruct (skip_day _ _ _); eauto.
    - by apply last_None in E. }
  rewrite Hday. simpl. apply IH; [done..|].
  apply scan_day_inv in Hday as (_ & Hlen & _).
  intros ->. destruct chosen; simpl in *; congruence.
Qed.

(** *** [find_days] as a whole *)

Lemma find_days_inv rows n b l :
  find_days rows n b = Ok l → n ≠ 0%Z →
  l ⊆+ changes rows ∧
  length l = S (Z.to_nat (n - 1)) ∧
  (length l ≤ length rows)%nat ∧
  (length rows = S (Z.to_nat (n - 1)) → l = changes rows).
Proof.
  unfold find_days. intros H Hn.
  destruct (Z.eqb_spec n 0) as [|_]; [done|].
  destruct rows as [|first_day reader]; [done|].
  apply bind_ok in H as (pct & Hpct & H). apply fdiv_inv in Hpct as [-> _].
  apply bind_ok in H as ([[reader1 chosen1] last1] & Hfill & H).
  apply bind_ok in H as ([chosen2 last2] & Hscan & H).
  injection H as <-.
  apply fill_days_inv in Hfill as (Hk & -> & -> & Hch).
  pose proof (scan_days_inv _ _ _ _ _ _ Hscan) as (Hlen & Hsub).
  assert (length chosen2 = S (Z.to_nat (n - 1))) as Hl.
  { rewrite Hlen, length_app. simpl.
    assert (∀ q rs, length (changes_from q rs) = length rs) as Hcf.
    { intros q rs. revert q. induction rs; intros; simpl; auto. }
    rewrite Hcf, length_take. lia. }
  split_and!.
  - simpl. rewrite Hch. by rewrite <- app_assoc in Hsub.
  - done.
  - rewrite Hl. simpl. lia.
  - simpl. intros [= Hfull]. rewrite <- Hfull in Hscan.
    rewrite drop_all, firstn_all in Hscan. simpl in Hscan.
    by injection Hscan as <- _.
Qed.

Lemma find_days_succeeds rows n b :
  Forall wf_row rows → (1 ≤ n ≤ Z.of_nat (length rows))%Z →
  ∃ l, find_days rows n b = Ok l.
Proof.
  intros Hwf Hn. unfold find_days.
  destruct (Z.eqb_spec n 0) as [|_]; [lia|].
  destruct rows as [|first_day reader]; simpl in Hn; [lia|].
  apply Forall_cons in Hwf as [[Hopen _] Hwf].
  rewrite fdiv_ok by by apply Qpos_nonzero. simpl.
  destruct (fill_days_succeeds (Z.to_nat (n - 1)) reader
              [mkDayPerf (row_date first_day)
                 ((row_close first_day - row_open first_day)
                  / row_open first_day)%Q]
              (row_open first_day) Hwf Hopen) as (chosen1 & last1 & Hfill & Hpos);
    [lia|].
  rewrite Hfill. simpl.
  destruct (scan_days_succeeds b (drop (Z.to_nat (n - 1)) reader) chosen1 last1)
    as [[chosen2 last2] Hscan]; [by apply Forall_drop | done | |].
  - apply fill_days_inv in Hfill as (_ & _ & -> & _). by destruct reader.
  - rewrite Hscan. simpl. eauto.
Qed.

Lemma changes_from_lookup pre rest i :
  pre ≠ [] →
  changes_from (reference_price (pre ++ rest) (length pre)) rest !! i
  = change_at (pre ++ rest) (length pre + i).
Proof.
  revert pre i. induction rest as [|day rest IH]; intros pre i Hpre.
  - unfold change_at. rewrite app_nil_r. simpl.
    rewrite lookup_nil, lookup_ge_None_2 by lia. done.
  - destruct i as [|i].
    + unfold change_at. rewrite Nat.add_0_r, list_lookup_middle by done. done.
    + simpl. rewrite (cons_middle day pre rest), app_assoc.
      replace (length pre + S i)%nat with (length (pre ++ [day]) + i)%nat
        by (rewrite length_app; simpl; lia).
      rewrite <- IH by by destruct pre.
      f_equal. rewrite length_app. simpl.
      destruct pre as [|r pre]; [done|].
      simpl. rewrite Nat.add_1_r. simpl.
      rewrite <- app_assoc. simpl.
      by rewrite list_lookup_middle.
Qed.

Lemma changes_lookup rows i : changes rows !! i = change_at rows i.
Proof.
  destruct rows as [|first_day rest]; [by destruct i|].
  destruct i as [|i]; [done|]. simpl.
  apply (changes_from_lookup [first_day] rest i). done.
Qed.

Lemma changes_dates rows : map date (changes rows) = map row_date rows.
Proof.
  assert (∀ q rs, map date (changes_from q rs) = map row_date rs) as Hcf.
  { intros q rs. revert q. induction rs; intros; simpl; f_equal; auto. }
  destruct rows; simpl; f_equal; auto.
Qed.

Lemma NoDup_submseteq_inv {A} (l k : list A) : l ⊆+ k → NoDup k → NoDup l.
Proof.
  intros Hsub Hk. apply submseteq_Permutation in Hsub as [k' Hk'].
  rewrite Hk' in Hk. by apply NoDup_app in Hk as [? _].
Qed.

(** What [find_days] returns has [n] entries, of distinct dates when the
    dates of the series are distinct. *)
Lemma find_days_length rows n b l :
  find_days rows n b = Ok l → (1 ≤ n)%Z → length l = Z.to_nat n.
Proof.
  intros H Hn. apply find_days_inv in H as (_ & -> & _); lia.
Qed.

Lemma find_days_NoDup rows n b l :
  find_days rows n b = Ok l → NoDup (map row_date rows) →
  NoDup (map date l).
Proof.
  intros H Hnd. destruct (decide (n = 0%Z)) as [->|Hn].
  - injection H as <-. constructor.
  - apply find_days_inv in H as (Hsub & _); [|done].
    rewrite <- changes_dates in Hnd.
    eapply NoDup_submseteq_inv; [|exact Hnd].
    by apply (fmap_submseteq date).
Qed.

(** *** The replay loop of [perf_if_missing_days] *)

Lemma replay_snoc D reader day st :
  replay D (reader ++ [day]) st = replay_day D (replay D reader st) day.
Proof. unfold replay. by rewrite foldl_app. Qed.

Lemma replay_no_missed reader st :
  missed_yesterday st = false →
  value (replay ∅ reader st) = value st ∧
  missed_yesterday (replay ∅ reader st) = false.
Proof.
  revert st. induction reader as [|day reader IH]; intros st Hst; [done|].
  simpl. unfold replay in IH.
  assert (replay_day ∅ st day = mkReplay (value st) false (row_close day)) as ->.
  { unfold replay_day. rewrite Hst. simpl.
    by rewrite bool_decide_eq_false_2 by set_solver. }
  exact (IH (mkReplay (value st) false (row_close day)) eq_refl).
Qed.

Lemma replay_agree D D' reader st :
  (∀ day, day ∈ reader → row_date day ∈ D ↔ row_date day ∈ D') →
  replay D reader st = replay D' reader st.
Proof.
  revert st. induction reader as [|day reader IH]; intros st Hagree; [done|].
  simpl. unfold replay in IH.
  assert (replay_day D st day = replay_day D' st day) as ->.
  { unfold replay_day.
    rewrite (bool_decide_ext _ (row_date day ∈ D')); [done|].
    apply Hagree. by left. }
  apply IH. intros d Hd. apply Hagree. by right.
Qed.

(** The outcome depends on the missed dates only through the dates of
    the records after the first. *)
Lemma perf_with_dates_agree first_day reader D D' :
  (∀ day, day ∈ reader → row_date day ∈ D ↔ row_date day ∈ D') →
  perf_with_dates (first_day :: reader) D
  = perf_with_dates (first_day :: reader) D'.
Proof. intros H. unfold perf_with_dates. by rewrite (replay_agree D D'). Qed.

(** A missed day adds the carried close whatever the flag says: the sell
    is not guarded by [missed_yesterday]. *)
Lemma replay_day_missed D st day :
  row_date day ∈ D →
  replay_day D st day
  = mkReplay (value st + last_close_price st)%Q true (row_close day).
Proof.
  intros Hd. unfold replay_day. rewrite bool_decide_eq_true_2 by done.
  by rewrite andb_false_r.
Qed.

(** Two consecutive missed days add two sell values. *)
Lemma replay_two_missed D st day1 day2 :
  row_date day1 ∈ D → row_date day2 ∈ D →
  replay D [day1; day2] st
  = mkReplay (value st + last_close_price st + row_close day1)%Q true
      (row_close day2).
Proof.
  intros H1 H2. unfold replay. simpl.
  by rewrite (replay_day_missed D st day1), replay_day_missed.
Qed.

(** With the last date missed, the final value holds both the sell at
    the previous close and the last close. *)
Lemma final_value_last_missed D first_day reader day :
  row_date day ∈ D →
  final_value D first_day (reader ++ [day])
  = (let st := replay D reader (mkReplay 0 false (row_close first_day)) in
     value st + last_close_price st + row_close day)%Q.
Proof.
  intros Hd. unfold final_value.
  by rewrite replay_snoc, replay_day_missed.
Qed.

(** *** Sorted working sets *)

Lemma Qltb_proper x x' y y' :
  (x == x')%Q → (y == y')%Q → Qltb x y = Qltb x' y'.
Proof.
  intros Hx Hy. destruct (Qltb x' y') eqn:E.
  - apply Qltb_lt. apply Qltb_lt in E. by rewrite Hx, Hy.
  - apply Qltb_ge. apply Qltb_ge in E. by rewrite Hx, Hy.
Qed.

Lemma insert_stable_head b x l :
  Forall (in_order b x) l → insert_stable b x l = x :: l.
Proof.
  destruct l as [|y l]; [done|]. intros H. apply Forall_cons in H as [Hy _].
  simpl. unfold in_order in Hy. by rewrite Hy.
Qed.

(** Sorting a list that is in order changes nothing. *)
Lemma sort_by_change_sorted_id b l :
  sorted_by_change b l → sort_by_change b l = l.
Proof.
  induction l as [|x l IH]; [done|]. intros H.
  apply StronglySorted_cons in H as [Hx Hl]. simpl.
  rewrite IH by done. by apply insert_stable_head.
Qed.

Lemma ranks_before_proper b x x' y y' :
  (x == x')%Q → (y == y')%Q → ranks_before b x y = ranks_before b x' y'.
Proof. intros Hx Hy. unfold ranks_before. destruct b; by apply Qltb_proper. Qed.

Lemma in_order_tie b x y z :
  in_order b x y → (change_percentage z == change_percentage y)%Q →
  in_order b x z.
Proof.
  unfold in_order. intros H E.
  by rewrite (ranks_before_proper b _ _ _ _ E (Qeq_refl (change_percentage x))).
Qed.

(** On a working set in order, a candidate that ties the last entry is
    appended, sorted to the end and dropped again: the set is unchanged. *)
Lemma scan_day_tie_sorted b chosen ref day boundary :
  sorted_by_change b chosen →
  last chosen = Some boundary →
  ¬ (ref == 0)%Q →
  ((row_close day - ref) / ref == change_percentage boundary)%Q →
  scan_day b (chosen, ref) day = Ok (chosen, row_close day).
Proof.
  intros Hsorted Hlast Href Htie. unfold scan_day, day_change.
  rewrite fdiv_ok by done. simpl. unfold last_item. rewrite Hlast. simpl.
  assert (skip_day b ((row_close day - ref) / ref)%Q boundary = false) as ->.
  { unfold skip_day. destruct b; apply Qltb_ge; rewrite Htie; apply Qle_refl. }
  rewrite sort_by_change_sorted_id; [by rewrite removelast_last|].
  apply last_Some in Hlast as [chosen' ->].
  apply StronglySorted_app. split_and!.
  - intros x y Hx Hy. apply list_elem_of_singleton in Hy as ->.
    apply elem_of_app in Hx as [Hx|Hx].
    + apply in_order_tie with boundary; [|done].
      eapply StronglySorted_app_1_elem_of; [exact Hsorted|done|by left].
    + apply list_elem_of_singleton in Hx as ->.
      unfold in_order, ranks_before.
      destruct b; apply Qltb_ge; simpl; rewrite Htie; apply Qle_refl.
  - done.
  - repeat constructor.
Qed.

(** *** The ranking order *)

Lemma ranks_before_trans b x y z :
  ranks_before b x y = true → ranks_before b y z = true →
  ranks_before b x z = true.
Proof.
  unfold ranks_before. destruct b; rewrite !Qltb_lt; intros H1 H2;
    eapply Qlt_trans; eauto.
Qed.

Lemma ranks_before_asym b x y :
  ranks_before b x y = true → ranks_before b y x = false.
Proof.
  unfold ranks_before. destruct b; rewrite Qltb_lt, Qltb_ge;
    apply Qlt_le_weak.
Qed.

Lemma ranks_before_neg_trans b x y z :
  ranks_before b x y = false → ranks_before b y z = false →
  ranks_before b x z = false.
Proof.
  unfold ranks_before. destruct b; rewrite !Qltb_ge; intros H1 H2;
    eapply Qle_trans; eauto.
Qed.

Lemma in_order_trans b x y z : in_order b x y → in_order b y z → in_order b x z.
Proof. unfold in_order. intros H1 H2. by eapply ranks_before_neg_trans. Qed.

Lemma insert_stable_sorted b x l :
  sorted_by_change b l → sorted_by_change b (insert_stable b x l).
Proof.
  induction l as [|y l IH]; intros Hl; simpl.
  - repeat constructor.
  - apply StronglySorted_cons in Hl as [Hy Hl].
    destruct (ranks_before _ _ _) eqn:E.
    + apply StronglySorted_cons. split; [|by apply IH].
      rewrite (insert_stable_perm b x l). apply Forall_cons. split; [|done].
      by apply ranks_before_asym.
    + apply StronglySorted_cons. split.
      * apply Forall_cons. split; [done|].
        eapply Forall_impl; [exact Hy|]. intros z Hz.
        by apply in_order_trans with y.
      * by apply StronglySorted_cons.
Qed.

Lemma sort_by_change_sorted b l : sorted_by_change b (sort_by_change b l).
Proof.
  induction l as [|x l IH]; simpl; [constructor|].
  by apply insert_stable_sorted.
Qed.

Lemma insert_stable_back b x p l :
  insert_stable b x (insert_back b p l) = insert_back b p (insert_stable b x l).
Proof.
  induction l as [|y l IH]; simpl.
  - destruct (ranks_before b (change_percentage p) (change_percentage x)); done.
  - destruct (ranks_before b (change_percentage p) (change_percentage y)) eqn:Epy,
      (ranks_before b (change_percentage y) (change_percentage x)) eqn:Eyx;
      simpl; rewrite ?Epy, ?Eyx.
    + by rewrite (ranks_before_trans b _ _ _ Epy Eyx).
    + by destruct (ranks_before b (change_percentage p) (change_percentage x)).
    + by rewrite IH.
    + by rewrite (ranks_before_neg_trans b _ _ _ Epy Eyx).
Qed.

(** Sorting after an append is an insertion from the back. *)
Lemma sort_by_change_snoc b l p :
  sort_by_change b (l ++ [p]) = insert_back b p (sort_by_change b l).
Proof.
  induction l as [|x l IH]; simpl; [done|].
  by rewrite IH, insert_stable_back.
Qed.

Lemma insert_back_length b p l : length (insert_back b p l) = S (length l).
Proof.
  induction l as [|y l IH]; simpl; [done|].
  destruct (ranks_before _ _ _); simpl; by rewrite ?IH.
Qed.

Lemma take_insert_back b p l k :
  take k (insert_back b p l) = take k (insert_back b p (take k l)).
Proof.
  revert k. induction l as [|y l IH]; intros [|k]; simpl; try done.
  destruct (ranks_before _ _ _); simpl; f_equal.
  - destruct k; simpl; [done|]. f_equal.
    by rewrite take_take, Nat.min_l by lia.
  - apply IH.
Qed.

Lemma insert_back_skipped b p l boundary :
  sorted_by_change b l → last l = Some boundary →
  ranks_before b (change_percentage boundary) (change_percentage p) = true →
  insert_back b p l = l ++ [p].
Proof.
  intros Hl Hlast Hskip. apply last_Some in Hlast as [l' ->].
  assert (Forall (λ y, ranks_before b (change_percentage p)
                         (change_percentage y) = false) (l' ++ [boundary])) as H.
  { apply Forall_app. split.
    - apply Forall_forall. intros y Hy.
      assert (in_order b y boundary) as Hyb
        by (eapply StronglySorted_app_1_elem_of; [exact Hl|done|by left]).
      destruct (ranks_before b (change_percentage p) (change_percentage y))
        eqn:E; [|done].
      unfold in_order in Hyb.
      by rewrite (ranks_before_trans b _ _ _ Hskip E) in Hyb.
    - apply Forall_singleton. by apply ranks_before_asym. }
  clear Hl. induction (l' ++ [boundary]) as [|y l IH]; simpl; [done|].
  apply Forall_cons in H as [-> H]. by rewrite IH.
Qed.

Lemma removelast_take {A} (l : list A) :
  removelast l = take (pred (length l)) l.
Proof.
  induction l as [|x [|y l] IH]; simpl; [done..|].
  f_equal. exact IH.
Qed.

(** One iteration of the comparison loop keeps the [k] first of the
    sorted changes seen so far, when it starts from them. *)
Lemma scan_day_top b seen chosen ref day chosen' ref' :
  chosen ≠ [] →
  chosen = take (length chosen) (sort_by_change b seen) →
  scan_day b (chosen, ref) day = Ok (chosen', ref') →
  chosen' = take (length chosen)
              (sort_by_change b (seen ++ changes_from ref [day])).
Proof.
  intros Hne Hchosen H. unfold scan_day in H.
  apply bind_ok in H as (pct & Hpct & H). apply fdiv_inv in Hpct as [-> _].
  apply bind_ok in H as (boundary & Hb & H).
  unfold last_item in Hb. destruct (last chosen) eqn:Hlast; [|done].
  injection Hb as ->. simpl.
  set (p := mkDayPerf (row_date day) ((row_close day - ref) / ref)%Q) in *.
  assert (sorted_by_change b chosen) as Hsorted.
  { rewrite Hchosen. rewrite <- (take_drop (length chosen) (sort_by_change b seen)).
    rewrite take_app_length'; [|by rewrite <- Hchosen].
    eapply StronglySorted_app_1_l. rewrite take_drop.
    apply sort_by_change_sorted. }
  rewrite sort_by_change_snoc, take_insert_back, <- Hchosen.
  assert (take (length chosen) (insert_back b p chosen)
          = removelast (insert_back b p chosen)) as ->.
  { by rewrite removelast_take, insert_back_length. }
  assert (skip_day b (change_percentage p) boundary
          = ranks_before b (change_percentage boundary) (change_percentage p))
    as Hskip by by destruct b.
  simpl in Hskip. rewrite Hskip in H.
  destruct (ranks_before b (change_percentage boundary) _) eqn:E.
  - injection H as <- <-.
    rewrite (insert_back_skipped b p chosen boundary) by done.
    by rewrite removelast_last.
  - injection H as <- <-.
    by rewrite sort_by_change_snoc, (sort_by_change_sorted_id b chosen).
Qed.

Lemma scan_days_top b reader seen chosen ref chosen' ref' :
  chosen ≠ [] →
  chosen = take (length chosen) (sort_by_change b seen) →
  scan_days b reader (chosen, ref) = Ok (chosen', ref') →
  chosen' = take (length chosen)
              (sort_by_change b (seen ++ changes_from ref reader)).
Proof.
  revert seen chosen ref.
  induction reader as [|day reader IH]; intros seen chosen ref Hne Hchosen H.
  - injection H as <- <-. by rewrite app_nil_r.
  - change (scan_days b (day :: reader) (chosen, ref))
      with (scan_day b (chosen, ref) day ≫= scan_days b reader) in H.
    apply bind_ok in H as ([chosen1 ref1] & Hday & H).
    pose proof (scan_day_inv _ _ _ _ _ _ Hday) as (-> & Hlen & _).
    apply (scan_day_top b seen) in Hday; [|done..].
    apply IH with (seen := seen ++ changes_from ref [day]) in H.
    + rewrite Hlen in H. simpl in H. by rewrite <- app_assoc in H.
    + intros ->. destruct chosen; simpl in *; congruence.
    + by rewrite Hlen.
Qed.

(** When the seeds are in order, in particular for [n = 1], the
    comparison loop starts from a sorted working set and [find_days]
    returns the brute-force selection. *)
Lemma find_days_top_k rows n b l :
  (1 ≤ n)%Z →
  sorted_by_change b (take (Z.to_nat n) (changes rows)) →
  find_days rows n b = Ok l →
  l = top_k b (Z.to_nat n) rows.
Proof.
  intros Hn Hseed H. unfold find_days in H.
  destruct (Z.eqb_spec n 0) as [|_]; [lia|].
  destruct rows as [|first_day reader]; [done|].
  apply bind_ok in H as (pct & Hpct & H). apply fdiv_inv in Hpct as [-> _].
  apply bind_ok in H as ([[reader1 chosen1] last1] & Hfill & H).
  apply bind_ok in H as ([chosen2 last2] & Hscan & H).
  injection H as <-.
  apply fill_days_inv in Hfill as (Hk & -> & -> & Hch).
  replace (Z.to_nat n) with (S (Z.to_nat (n - 1))) in * by lia.
  set (k := Z.to_nat (n - 1)) in *. simpl in Hseed. simpl app in Hscan.
  assert (∀ q rs j, take j (changes_from q rs) = changes_from q (take j rs))
    as Htake.
  { intros q rs. revert q. induction rs as [|r rs IHrs]; intros q [|j];
      simpl; f_equal; auto. }
  rewrite Htake in Hseed.
  set (seeds := _ :: changes_from _ (take k reader)) in *.
  assert (length seeds = S k) as Hlen.
  { unfold seeds. simpl. f_equal.
    assert (∀ q rs, length (changes_from q rs) = length rs) as Hcf.
    { intros q rs. revert q. induction rs; intros; simpl; auto. }
    rewrite Hcf, length_take. lia. }
  apply (scan_days_top b _ seeds) in Hscan.
  - rewrite Hscan, Hlen. unfold top_k. simpl. by rewrite Hch.
  - done.
  - by rewrite sort_by_change_sorted_id, firstn_all.
Qed.

Lemma find_days_one rows b l :
  find_days rows 1 b = Ok l → l = top_k b 1 rows.
Proof.
  apply find_days_top_k; [done|].
  destruct rows as [|first_day rows]; simpl; repeat constructor.
Qed.

(** With the seeds in order the result is in order as well. *)
Lemma find_days_sorted rows n b l :
  (1 ≤ n)%Z →
  sorted_by_change b (take (Z.to_nat n) (changes rows)) →
  find_days rows n b = Ok l →
  sorted_by_change b l.
Proof.
  intros Hn Hseed H. rewrite (find_days_top_k rows n b l Hn Hseed H).
  unfold top_k. eapply StronglySorted_app_1_l.
  rewrite take_drop. apply sort_by_change_sorted.
Qed.

(** *** [validate_header] on the rows a [DictReader] builds *)

(** As long as every name has a field, the check compares the lowered
    fields with the names, in order. *)
Lemma validate_header_zip names fields rest :
  length names = length fields →
  validate_header (zip (map Some names) (map CStr fields) ++ rest)
  = if bool_decide (map lower fields = names)
    then validate_header rest else Raise ValueError.
Proof.
  revert fields. induction names as [|name names IH]; intros fields Hlen.
  - destruct fields; [|done]. by rewrite bool_decide_eq_true_2.
  - destruct fields as [|field fields]; [done|].
    injection Hlen as Hlen. simpl.
    destruct (decide (lower field = name)) as [->|Hne].
    + rewrite bool_decide_eq_false_2 by (intros ?; congruence).
      rewrite IH by done.
      destruct (decide (map lower fields = names)) as [->|Hne].
      * by rewrite !bool_decide_eq_true_2.
      * rewrite !bool_decide_eq_false_2; [done| |done]. congruence.
    + rewrite bool_decide_eq_true_2 by congruence.
      rewrite bool_decide_eq_false_2; [done|]. congruence.
Qed.

(** A header line of seven fields passes exactly when the lowered fields
    are the expected names in order; otherwise [ValueError]. *)
Lemma validate_header_line_seven fields :
  length fields = 7%nat →
  validate_header_line fields
  = if bool_decide (map lower fields = CSV_FIELD_NAMES)
    then Ok tt else Raise ValueError.
Proof.
  intros Hlen. unfold validate_header_line, dict_reader_row.
  rewrite Hlen. simpl length. simpl drop. simpl map at 3.
  by rewrite validate_header_zip.
Qed.

(** A shorter header line never passes: [ValueError] when a present field
    is not the expected one, [AttributeError] when all present fields
    match and the check reaches the first name without a field. *)
Lemma validate_header_line_short fields :
  (length fields < 7)%nat →
  validate_header_line fields
  = if bool_decide (map lower fields = take (length fields) CSV_FIELD_NAMES)
    then Raise AttributeError else Raise ValueError.
Proof.
  intros Hlen. unfold validate_header_line, dict_reader_row.
  replace (length CSV_FIELD_NAMES <? length fields)%nat with false
    by (symmetry; apply Nat.ltb_ge; simpl; lia).
  rewrite <- (take_drop (length fields) CSV_FIELD_NAMES) at 1.
  assert (length (take (length fields) CSV_FIELD_NAMES) = length fields)
    as Htake by (rewrite length_take; simpl; lia).
  rewrite map_app, zip_with_app_l, length_map, Htake.
  rewrite (take_ge (map CStr fields)), (drop_ge (map CStr fields))
    by (rewrite length_map; lia).
  rewrite zip_with_nil_r, app_nil_r.
  rewrite validate_header_zip by done.
  case_bool_decide; [|done].
  destruct (drop (length fields) CSV_FIELD_NAMES) eqn:E; [|done].
  apply (f_equal length) in E. rewrite length_drop in E. simpl in E. lia.
Qed.

(** Reordered columns are refused with [ValueError]. *)
Lemma validate_header_reordered fields :
  map lower fields ≡ₚ CSV_FIELD_NAMES →
  map lower fields ≠ CSV_FIELD_NAMES →
  validate_header_line fields = Raise ValueError.
Proof.
  intros Hperm Hne. rewrite validate_header_line_seven.
  - by rewrite bool_decide_eq_false_2.
  - apply Permutation_length in Hperm. by rewrite length_map in Hperm.
Qed.

(** A header that has lost the column at index [i]: [ValueError], except
    for the last column, where it is [AttributeError]. *)
Lemma validate_header_missing_column fields i :
  map lower fields = CSV_FIELD_NAMES → (i < 7)%nat →
  validate_header_line (delete i fields)
  = if decide (i = 6%nat) then Raise AttributeError else Raise ValueError.
Proof.
  intros Hnames Hi.
  assert (length fields = 7%nat) as Hlen
    by (apply (f_equal length) in Hnames; by rewrite length_map in Hnames).
  assert (length (delete i fields) = 6%nat) as Hdel.
  { rewrite length_delete; [lia|]. apply lookup_lt_is_Some. lia. }
  rewrite validate_header_line_short by lia.
  rewrite Hdel. change (map lower (delete i fields)) with (lower <$> delete i fields).
  rewrite list_fmap_delete. change (lower <$> fields) with (map lower fields).
  rewrite Hnames.
  do 7 (destruct i as [|i]; [by vm_compute|]). lia.
Qed.

(** ** The claims *)

Ltac wf_rows := repeat constructor.

(** C5 (reference rule). On a series of positive prices and for
    [1 <= n <= length], [find_days] returns, and every entry it returns is
    the date of some record [i] with the change
    [(close - reference) / reference], where the reference of the first
    and of the second record is the first record's open and the reference
    of every later record is the preceding record's close
    ([reference_price]); when all records are seeded ([n] is the length),
    the entries are those changes in the order of the series. *)
Theorem find_days_reference_rule rows n b :
  Forall wf_row rows → (1 ≤ n ≤ Z.of_nat (length rows))%Z →
  ∃ l, find_days rows n b = Ok l ∧
       (∀ p, p ∈ l → ∃ i, change_at rows i = Some p) ∧
       (n = Z.of_nat (length rows) → ∀ i, l !! i = change_at rows i).
Proof.
  intros Hwf Hn. destruct (find_days_succeeds rows n b Hwf Hn) as [l Hl].
  exists l. split; [done|].
  apply find_days_inv in Hl as (Hsub & Hlen & _ & Hfull); [|lia].
  split.
  - intros p Hp. eapply elem_of_submseteq in Hp; [|exact Hsub].
    apply list_elem_of_lookup in Hp as [i Hi]. exists i.
    by rewrite <- changes_lookup.
  - intros -> i. rewrite Hfull by lia. apply changes_lookup.
Qed.

Lemma find_days_reference_rule_witness :
  ∃ l, find_days scenario 3 true = Ok l ∧
       (∀ p, p ∈ l → ∃ i, change_at scenario i = Some p) ∧
       (3%Z = Z.of_nat (length scenario) →
        ∀ i, l !! i = change_at scenario i).
Proof.
  apply (find_days_reference_rule scenario 3 true); [wf_rows | simpl; lia].
Defined.

(** C8 (insufficient data). For [n >= 1] and a series of positive prices
    with fewer than [n] records, [find_days] raises [StopIteration]: the
    reader is exhausted before the window is seeded. *)
Theorem find_days_insufficient_data rows n b :
  (1 ≤ n)%Z → (Z.of_nat (length rows) < n)%Z → Forall wf_row rows →
  find_days rows n b = Raise StopIteration.
Proof.
  intros Hn Hlen Hwf. unfold find_days.
  destruct (Z.eqb_spec n 0) as [|_]; [lia|].
  destruct rows as [|first_day reader]; [done|].
  apply Forall_cons in Hwf as [[Hopen _] Hwf].
  rewrite fdiv_ok by by apply Qpos_nonzero. simpl.
  rewrite fill_days_short; [done..|]. simpl in Hlen. lia.
Qed.

Lemma find_days_insufficient_data_witness :
  find_days scenario 4 false = Raise StopIteration.
Proof.
  apply (find_days_insufficient_data scenario 4 false);
    [lia | simpl; lia | wf_rows].
Defined.

(** Whatever the prices, a series shorter than [n >= 1] yields no list. *)
Lemma find_days_short_fails rows n b :
  (1 ≤ n)%Z → (Z.of_nat (length rows) < n)%Z →
  is_ok (find_days rows n b) = false.
Proof.
  intros Hn Hlen. unfold find_days.
  destruct (Z.eqb_spec n 0) as [|_]; [lia|].
  destruct rows as [|first_day reader]; [done|].
  destruct (fdiv _ _); simpl; [|done].
  pose proof (fill_days_short_fails (Z.to_nat (n - 1)) reader
    [mkDayPerf (row_date first_day) a] (row_open first_day)) as H.
  destruct (fill_days _ _ _ _); [|done].
  simpl in Hlen. discriminate H. lia.
Qed.

(** C6 (no missed day). With an empty list of missed days and a first
    open other than zero, [perf_if_missing_days] returns both fractions
    and the adjusted one equals the held one. *)
Theorem perf_no_missed_days first_day reader :
  ¬ (row_open first_day == 0)%Q →
  ∃ held adjusted,
    perf_if_missing_days (first_day :: reader) [] = Ok (held, adjusted) ∧
    (adjusted == held)%Q.
Proof.
  intros Hopen. unfold perf_if_missing_days, perf_with_dates.
  change (dates_of []) with (∅ : gset string).
  set (st := replay ∅ reader _).
  destruct (replay_no_missed reader (mkReplay 0 false (row_close first_day)))
    as [Hvalue _]; [done|]. fold st in Hvalue. simpl in Hvalue.
  rewrite !fdiv_ok by done. simpl.
  eexists _, _. split; [done|].
  by rewrite Hvalue, Qplus_0_l.
Qed.

Lemma perf_no_missed_days_witness :
  ∃ held adjusted,
    perf_if_missing_days scenario [] = Ok (held, adjusted) ∧
    (adjusted == held)%Q.
Proof.
  apply (perf_no_missed_days (mkRow "d1" 100 110)
           [mkRow "d2" 110 90; mkRow "d3" 90 120]).
  intros H. discriminate H.
Defined.

(** Without missed days the only failures are the empty series and a
    zero first open. *)
Lemma perf_no_missed_days_errors rows e :
  perf_if_missing_days rows [] = Raise e →
  (rows = [] ∧ e = StopIteration) ∨
  (∃ first_day reader, rows = first_day :: reader ∧
     (row_open first_day == 0)%Q ∧ e = ZeroDivisionError).
Proof.
  destruct rows as [|first_day reader].
  - intros [= <-]. by left.
  - intros H. right. exists first_day, reader.
    unfold perf_if_missing_days, perf_with_dates, fdiv in H.
    destruct (Qeq_bool (row_open first_day) 0) eqn:E; [|done].
    injection H as <-. by apply Qeq_bool_iff in E.
Qed.

Lemma dates_of_filter d missed_days :
  dates_of (filter (λ m, date m ≠ d) missed_days) = dates_of missed_days ∖ {[d]}.
Proof.
  unfold dates_of. apply set_eq. intros x.
  rewrite elem_of_difference, !elem_of_list_to_set, !list_elem_of_fmap.
  setoid_rewrite list_elem_of_filter. rewrite elem_of_singleton. split.
  - intros (m & -> & Hm & Hin). split; [|done]. by exists m.
  - intros [(m & -> & Hin) Hm]. by exists m.
Qed.

(** C10 (the first date is never tested). When the first record's date is
    not the date of a later record, removing it from the missed dates
    changes nothing: the same outcome for the set [D] and for [D] without
    that date, and for a list of missed days and the list without the
    entries of that date. *)
Theorem perf_first_date_irrelevant first_day reader :
  row_date first_day ∉ map row_date reader →
  (∀ D : gset string,
     perf_with_dates (first_day :: reader) D
     = perf_with_dates (first_day :: reader) (D ∖ {[row_date first_day]})) ∧
  (∀ missed_days,
     perf_if_missing_days (first_day :: reader) missed_days
     = perf_if_missing_days (first_day :: reader)
         (filter (λ m, date m ≠ row_date first_day) missed_days)).
Proof.
  intros Hfresh.
  assert (∀ D : gset string,
     perf_with_dates (first_day :: reader) D
     = perf_with_dates (first_day :: reader) (D ∖ {[row_date first_day]}))
    as Hset.
  { intros D. apply perf_with_dates_agree. intros day Hday.
    assert (row_date day ≠ row_date first_day).
    { intros E. apply Hfresh. rewrite <- E. by apply list_elem_of_fmap_2. }
    rewrite elem_of_difference, elem_of_singleton. tauto. }
  split; [done|]. intros missed_days. unfold perf_if_missing_days.
  by rewrite dates_of_filter.
Qed.

Lemma perf_first_date_irrelevant_witness :
  perf_if_missing_days scenario [mkDayPerf "d1" 0; mkDayPerf "d2" 0]
  = perf_if_missing_days scenario [mkDayPerf "d2" 0].
Proof.
  refine (proj2 (perf_first_date_irrelevant (mkRow "d1" 100 110)
            [mkRow "d2" 110 90; mkRow "d3" 90 120] _)
            [mkDayPerf "d1" 0; mkDayPerf "d2" 0]).
  simpl. rewrite !not_elem_of_cons. split_and!; [done..|apply not_elem_of_nil].
Defined.

(** C1 (selection invariant), evaluated on [rising] with [n = 2] in BEST
    mode. The changes are 0.1, 0.5 and 0.3; the two largest are those of
    d2 and d3, as [top_k] finds. [find_days] seeds d1 and d2 unsorted,
    compares d3's 0.3 with the last seed's 0.5, skips it, and returns d1
    and d2. *)
Theorem find_days_misses_best_day :
  ∃ l, find_days rising 2 true = Ok l ∧
       map date l = ["d1"; "d2"] ∧
       map (λ p, Qred (change_percentage p)) l = [1 # 10; 1 # 2]%Q ∧
       map date (top_k true 2 rising) = ["d2"; "d3"] ∧
       map (λ p, Qred (change_percentage p)) (top_k true 2 rising)
       = [1 # 2; 3 # 10]%Q.
Proof. eexists. split; [reflexivity|]. by vm_compute. Qed.

(** C4 (sorted result), evaluated on the first two days of [rising] with
    [n = 2] in BEST mode: the result has two entries of distinct dates,
    but it is in seed order, 0.1 before 0.5, not descending. *)
Theorem find_days_result_unsorted :
  ∃ l, find_days (take 2 rising) 2 true = Ok l ∧
       length l = 2%nat ∧
       NoDup (map date l) ∧
       map (λ p, Qred (change_percentage p)) l = [1 # 10; 1 # 2]%Q ∧
       ¬ sorted_by_change true l.
Proof.
  eexists. split; [reflexivity|]. split_and!.
  - done.
  - eapply (find_days_NoDup (take 2 rising) 2 true); [reflexivity|].
    simpl. apply NoDup_cons. split; [|apply NoDup_singleton].
    rewrite list_elem_of_singleton. done.
  - by vm_compute.
  - intros H. apply StronglySorted_cons in H as [H _].
    apply Forall_cons in H as [H _]. vm_compute in H. discriminate H.
Qed.









(** C2 (runs of missed days), evaluated on [steady] with d2 and d3
    missed. The value collects the close of d1 (110) at d2 and the close
    of d2 (120) at d3, two sells for one run, then the buy at d4's open
    (130) and the last close (140): 240, an adjusted return of 1.4 where
    one sell and one buy give 120 and 0.2. *)
Theorem perf_run_sells_twice :
  (final_value {["d2"; "d3"]} (mkRow "d1" 100 110) (drop 1 steady)
   == 110 + 120 - 130 + 140)%Q ∧
  ∃ held adjusted,
    perf_if_missing_days steady [mkDayPerf "d2" 0; mkDayPerf "d3" 0]
    = Ok (held, adjusted) ∧
    (held == 4 # 10)%Q ∧ (adjusted == 14 # 10)%Q.
Proof.
  split; [by vm_compute|].
  eexists _, _. split; [reflexivity|]. split; by vm_compute.
Qed.

(** C3 (last day missed), evaluated on [scenario] with its best day
    missed, which is d3, the last. The value collects the close of d2
    (90) at d3 and, after the loop, the close of d3 (120) as well: 210,
    an adjusted return of 1.1 where a position sold at 90 and flat on d3
    gives 90 and -0.1. *)
Theorem perf_last_day_missed_adds_close :
  (final_value {["d3"]} (mkRow "d1" 100 110) (drop 1 scenario)
   == 90 + 120)%Q ∧
  ∃ best_days held adjusted,
    find_days scenario 1 true = Ok best_days ∧
    map date best_days = ["d3"] ∧
    perf_if_missing_days scenario best_days = Ok (held, adjusted) ∧
    (held == 2 # 10)%Q ∧ (adjusted == 11 # 10)%Q.
Proof.
  split; [by vm_compute|].
  eexists _, _, _. split; [reflexivity|]. split; [by vm_compute|].
  split; [reflexivity|]. split; by vm_compute.
Qed.

(** C9 (header check), evaluated on a header line without its last
    column. The six fields match their names, and the check then calls
    [lower] on the [None] that stands for the missing seventh field:
    [AttributeError], not [ValueError]. A dict that lacks the [volume]
    key altogether passes. Headers of seven fields, and headers missing
    another column, behave as claimed. *)
Theorem validate_header_missing_last_column :
  validate_header_line ["Date"; "Open"; "High"; "Low"; "Close"; "Adj Close"]
  = Raise AttributeError ∧
  validate_header
    [(Some "date", CStr "Date"); (Some "open", CStr "Open");
     (Some "high", CStr "High"); (Some "low", CStr "Low");
     (Some "close", CStr "Close"); (Some "adj close", CStr "Adj Close")]
  = Ok tt ∧
  validate_header_line
    ["Date"; "Open"; "High"; "Low"; "Close"; "Adj Close"; "Volume"] = Ok tt ∧
  validate_header_line
    ["DATE"; "open"; "hIgH"; "Low"; "Close"; "Adj Close"; "Volume"] = Ok tt ∧
  validate_header_line
    ["Open"; "Date"; "High"; "Low"; "Close"; "Adj Close"; "Volume"]
  = Raise ValueError ∧
  validate_header_line ["Date"; "Open"; "High"; "Low"; "Close"; "Volume"]
  = Raise ValueError.
Proof. split_and!; by vm_compute. Qed.

(** ** Further properties *)

(** *** [validate_header] *)

Lemma validate_header_line_long fields :
  (7 < length fields)%nat →
  validate_header_line fields
  = if bool_decide (map lower (take 7 fields) = CSV_FIELD_NAMES)
    then Raise AttributeError else Raise ValueError.
Proof.
  intros Hlen. unfold validate_header_line, dict_reader_row.
  replace (length CSV_FIELD_NAMES <? length fields)%nat with true
    by (symmetry; apply Nat.ltb_lt; simpl; lia).
  rewrite <- (take_drop 7 fields) at 1.
  rewrite map_app, zip_with_app_r, length_map, length_take.
  replace (7 `min` length fields)%nat with 7%nat by lia.
  change (take 7 (map Some CSV_FIELD_NAMES)) with (map Some CSV_FIELD_NAMES).
  change (drop 7 (map Some CSV_FIELD_NAMES)) with (@nil (option string)).
  simpl zip_with at 2. rewrite app_nil_r.
  rewrite validate_header_zip
    by (rewrite length_take; change (length CSV_FIELD_NAMES) with 7%nat; lia).
  by case_bool_decide.
Qed.

Lemma validate_header_line_pass fields :
  map lower fields = CSV_FIELD_NAMES → validate_header_line fields = Ok tt.
Proof.
  intros H. rewrite validate_header_line_seven.
  - by rewrite bool_decide_eq_true_2.
  - apply (f_equal length) in H. by rewrite length_map in H.
Qed.

Lemma validate_header_line_ok_inv fields :
  validate_header_line fields = Ok tt → map lower fields = CSV_FIELD_NAMES.
Proof.
  destruct (Nat.lt_trichotomy (length fields) 7) as [Hlt|[Heq|Hgt]].
  - rewrite validate_header_line_short by done. by case_bool_decide.
  - rewrite validate_header_line_seven by done. by case_bool_decide.
  - rewrite validate_header_line_long by done. by case_bool_decide.
Qed.

(** X1. A header line passes exactly when its fields, lowered, are the
    seven expected names in order. *)
Theorem validate_header_line_accepts_iff fields :
  validate_header_line fields = Ok tt ↔ map lower fields = CSV_FIELD_NAMES.
Proof.
  split; [apply validate_header_line_ok_inv|apply validate_header_line_pass].
Qed.

(** X2. Which exception a header line gets: [ValueError] when one of its
    first seven fields is not the expected name, otherwise
    [AttributeError] when it has fewer or more than seven fields, where
    the check runs into the [None] of a missing field or the list of the
    surplus fields. *)
Theorem validate_header_line_outcome fields :
  validate_header_line fields
  = if bool_decide (map lower (take 7 fields)
                    = take (length fields) CSV_FIELD_NAMES)
    then if decide (length fields = 7%nat) then Ok tt else Raise AttributeError
    else Raise ValueError.
Proof.
  destruct (Nat.lt_trichotomy (length fields) 7) as [Hlt|[Heq|Hgt]].
  - rewrite validate_header_line_short by done.
    rewrite (take_ge fields) by lia. case_bool_decide; [|done].
    by rewrite decide_False by lia.
  - rewrite validate_header_line_seven by done.
    rewrite (take_ge fields) by lia. rewrite Heq.
    change (take 7 CSV_FIELD_NAMES) with CSV_FIELD_NAMES.
    case_bool_decide; [|done]. by rewrite decide_True.
  - rewrite validate_header_line_long by done.
    rewrite (take_ge CSV_FIELD_NAMES) by (simpl; lia).
    case_bool_decide; [|done]. by rewrite decide_False by lia.
Qed.

(** *** [find_days]: when it returns *)

Lemma fdiv_is_ok x y : is_ok (fdiv x y) = true ↔ nonzero y.
Proof.
  unfold fdiv, nonzero. destruct (Qeq_bool y 0) eqn:E; simpl.
  - apply Qeq_bool_iff in E. split; [done|]. by intros [].
  - split; [|done]. intros _ Hy. apply Qeq_bool_iff in Hy. congruence.
Qed.

Lemma fill_days_ok_iff k reader chosen ref :
  is_ok (fill_days k reader chosen ref) = true ↔
  (k ≤ length reader)%nat ∧
  Forall nonzero (references_from ref (take k reader)).
Proof.
  revert reader chosen ref.
  induction k as [|k IH]; intros reader chosen ref; simpl.
  - split; [|done]. intros _. split; [lia|constructor].
  - destruct reader as [|day reader]; simpl.
    + split; [done|]. intros [? _]. lia.
    + rewrite Forall_cons, <- (fdiv_is_ok (row_close day - ref) ref).
      unfold day_change. destruct (fdiv _ ref) as [pct|e]; simpl.
      * rewrite IH. split; [intros [? ?]|intros [? [_ ?]]]; split_and!;
          done || lia.
      * split; [done|]. by intros [_ [? _]].
Qed.

Lemma fill_days_references k reader chosen ref reader' chosen' ref' :
  fill_days k reader chosen ref = Ok (reader', chosen', ref') →
  references_from ref reader
  = references_from ref (take k reader) ++ references_from ref' reader'.
Proof.
  revert reader chosen ref.
  induction k as [|k IH]; intros reader chosen ref; simpl.
  - by intros [= <- <- <-].
  - destruct reader as [|day reader]; [done|].
    intros H. apply bind_ok in H as (pct & _ & H).
    apply IH in H. simpl. by rewrite H.
Qed.

Lemma scan_days_ok_iff b reader chosen ref :
  chosen ≠ [] →
  is_ok (scan_days b reader (chosen, ref)) = true ↔
  Forall nonzero (references_from ref reader).
Proof.
  revert chosen ref.
  induction reader as [|day reader IH]; intros chosen ref Hne.
  - simpl. split; [constructor|done].
  - change (scan_days b (day :: reader) (chosen, ref))
      with (scan_day b (chosen, ref) day ≫= scan_days b reader).
    simpl references_from.
    rewrite Forall_cons, <- (fdiv_is_ok (row_close day - ref) ref).
    destruct (scan_day b (chosen, ref) day) as [[chosen1 ref1]|e] eqn:Hday.
    + pose proof (scan_day_inv _ _ _ _ _ _ Hday) as (-> & Hlen & _).
      simpl. rewrite IH.
      * unfold scan_day, day_change in Hday.
        destruct (fdiv _ ref); [|done]. split; [done|]. by intros [_ ?].
      * intros ->. destruct chosen; simpl in *; congruence.
    + simpl. split; [done|]. intros [Href _]. exfalso.
      unfold scan_day, day_change in Hday.
      destruct (fdiv _ ref); [|done]. simpl in Hday.
      unfold last_item in Hday. destruct (last chosen) eqn:E.
      * simpl in Hday. by destruct (skip_day _ _ _).
      * by apply last_None in E.
Qed.

(** X4. [find_days] returns a list exactly when [n] is 0, or the series
    has at least [max n 1] records and no record's reference price is
    zero: the first open, and the close of every record but the first and
    the last. In every other case it raises. *)
Theorem find_days_returns_iff rows n b :
  is_ok (find_days rows n b) = true ↔
  n = 0%Z ∨
  ((S (Z.to_nat (n - 1)) ≤ length rows)%nat ∧
   Forall nonzero (references rows)).
Proof.
  unfold find_days. destruct (Z.eqb_spec n 0) as [->|Hn].
  { split; [by left|done]. }
  destruct rows as [|first_day reader]; simpl.
  { split; [done|]. intros [?|[? _]]; [done|lia]. }
  rewrite Forall_cons, <- (fdiv_is_ok (row_close first_day - row_open first_day)).
  destruct (fdiv _ (row_open first_day)) as [pct|e]; simpl.
  2:{ split; [done|]. intros [?|[_ [? _]]]; done. }
  set (chosen := [mkDayPerf (row_date first_day) pct]).
  pose proof (fill_days_ok_iff (Z.to_nat (n - 1)) reader chosen
                (row_open first_day)) as Hfill.
  destruct (fill_days _ reader chosen _)
    as [[[reader1 chosen1] ref1]|e] eqn:E; simpl.
  - pose proof (fill_days_references _ _ _ _ _ _ _ E) as Hrefs.
    pose proof (fill_days_inv _ _ _ _ _ _ _ E) as (_ & _ & Hchosen & _).
    assert (chosen1 ≠ []) as Hne by (rewrite Hchosen; done).
    pose proof (scan_days_ok_iff b reader1 chosen1 ref1 Hne) as Hscan.
    destruct (scan_days b reader1 (chosen1, ref1)) as [[chosen2 ref2]|e];
      simpl in *.
    + apply proj1 in Hscan, Hfill. destruct Hfill as [Hk Hfill]; [done|].
      split; [|done]. intros _. right. split; [lia|]. split; [done|].
      rewrite Hrefs. apply Forall_app. split; [done|by apply Hscan].
    + split; [done|]. intros [?|[_ [_ Hall]]]; [done|].
      rewrite Hrefs in Hall. apply Forall_app in Hall as [_ Hall].
      by apply Hscan in Hall.
  - simpl in Hfill. split; [done|]. intros [?|[Hk [_ Hall]]]; [done|].
    apply Hfill. split; [lia|].
    assert (∀ q rs j, Forall nonzero (references_from q rs) →
                      Forall nonzero (references_from q (take j rs))) as Htake.
    { intros q rs. revert q. induction rs as [|r rs IHrs]; intros q [|j] Hq;
        simpl; try constructor.
      - by apply Forall_cons in Hq as [? _].
      - apply IHrs. by apply Forall_cons in Hq as [_ ?]. }
    by apply Htake.
Qed.

(** *** [find_days]: what it returns *)

Lemma changes_from_take q rows j :
  take j (changes_from q rows) = changes_from q (take j rows).
Proof.
  revert q j. induction rows as [|r rows IH]; intros q [|j]; simpl;
    f_equal; auto.
Qed.

Lemma in_order_refl b x : in_order b x x.
Proof.
  unfold in_order.
  destruct (ranks_before b (change_percentage x) (change_percentage x)) eqn:E;
    [|done].
  by rewrite (ranks_before_asym b _ _ E) in E.
Qed.

Lemma at_least_as_extreme_in_order b q p :
  at_least_as_extreme b q p ↔ in_order b q p.
Proof.
  unfold at_least_as_extreme, in_order, ranks_before.
  destruct b; by rewrite Qltb_ge.
Qed.

Lemma removelast_sorted b l :
  sorted_by_change b l → sorted_by_change b (removelast l).
Proof.
  intros H. rewrite removelast_take. eapply StronglySorted_app_1_l.
  by rewrite take_drop.
Qed.

(** Dropping the last entry of a list in order loses nothing: an entry
    that stays ranks at least as well. *)
Lemma removelast_covers b l q :
  sorted_by_change b l → (2 ≤ length l)%nat → q ∈ l →
  ∃ q', q' ∈ removelast l ∧ in_order b q' q.
Proof.
  intros Hsorted Hlen Hq.
  destruct (exists_last (l := l)) as (l' & z & ->);
    [intros ->; simpl in Hlen; lia|].
  rewrite removelast_last. apply elem_of_app in Hq as [Hq|Hq].
  - exists q. split; [done|apply in_order_refl].
  - apply list_elem_of_singleton in Hq as ->.
    destruct l' as [|h l']; [simpl in Hlen; lia|].
    exists h. split; [by left|].
    simpl in Hsorted. apply StronglySorted_cons in Hsorted as [Hh _].
    rewrite Forall_app, Forall_singleton in Hh. by destruct Hh.
Qed.

Lemma scan_day_sorted_or_same b chosen ref day chosen' ref' :
  scan_day b (chosen, ref) day = Ok (chosen', ref') →
  chosen' = chosen ∨ sorted_by_change b chosen'.
Proof.
  unfold scan_day. intros H.
  apply bind_ok in H as (pct & _ & H). apply bind_ok in H as (boundary & _ & H).
  destruct (skip_day _ _ _); injection H as <- <-; [by left|right].
  apply removelast_sorted, sort_by_change_sorted.
Qed.

Lemma scan_days_sorted b reader chosen ref chosen' ref' :
  sorted_by_change b chosen →
  scan_days b reader (chosen, ref) = Ok (chosen', ref') →
  sorted_by_change b chosen'.
Proof.
  revert chosen ref.
  induction reader as [|day reader IH]; intros chosen ref Hsorted H.
  - by injection H as <- <-.
  - change (scan_days b (day :: reader) (chosen, ref))
      with (scan_day b (chosen, ref) day ≫= scan_days b reader) in H.
    apply bind_ok in H as ([chosen1 ref1] & Hday & H).
    apply scan_day_sorted_or_same in Hday as [->|Hday]; by eapply IH.
Qed.

Lemma scan_days_sorted_or_same b reader chosen ref chosen' ref' :
  scan_days b reader (chosen, ref) = Ok (chosen', ref') →
  chosen' = chosen ∨ sorted_by_change b chosen'.
Proof.
  revert chosen ref.
  induction reader as [|day reader IH]; intros chosen ref H.
  - injection H as <- <-. by left.
  - change (scan_days b (day :: reader) (chosen, ref))
      with (scan_day b (chosen, ref) day ≫= scan_days b reader) in H.
    apply bind_ok in H as ([chosen1 ref1] & Hday & H).
    apply scan_day_sorted_or_same in Hday as [->|Hday]; [by eapply IH|].
    right. by eapply scan_days_sorted.
Qed.

Ltac distinct_dates :=
  repeat (apply NoDup_cons; split;
          [rewrite ?not_elem_of_cons; split_and?;
           first [done | apply not_elem_of_nil]|]);
  apply NoDup_nil_2.

(** X5. A negative [n] is not refused: it selects as [n = 1] does. *)
Theorem find_days_negative_n rows n b :
  (n < 0)%Z → find_days rows n b = find_days rows 1 b.
Proof.
  intros Hn. unfold find_days.
  destruct (Z.eqb_spec n 0) as [|_]; [lia|]. simpl.
  by replace (Z.to_nat (n - 1)) with 0%nat by lia.
Qed.

Lemma find_days_negative_n_witness :
  find_days scenario (-3) true = find_days scenario 1 true.
Proof. apply (find_days_negative_n scenario (-3) true). lia. Defined.

(** X6. On a series of positive prices and distinct dates, for
    [1 <= n <= length], [find_days] returns [n] entries, each the
    performance of a record of its own: a sub-multiset of the series'
    changes, with distinct dates. *)
Theorem find_days_entries rows n b :
  Forall wf_row rows → (1 ≤ n ≤ Z.of_nat (length rows))%Z →
  NoDup (map row_date rows) →
  ∃ l, find_days rows n b = Ok l ∧
       length l = Z.to_nat n ∧ l ⊆+ changes rows ∧ NoDup (map date l).
Proof.
  intros Hwf Hn Hdates.
  destruct (find_days_succeeds rows n b Hwf Hn) as [l Hl]. exists l.
  split_and!; [done| | |].
  - by eapply find_days_length; [|lia].
  - eapply find_days_inv; [done|lia].
  - by eapply find_days_NoDup.
Qed.

Lemma find_days_entries_witness :
  ∃ l, find_days rising 2 true = Ok l ∧
       length l = Z.to_nat 2 ∧ l ⊆+ changes rising ∧ NoDup (map date l).
Proof.
  apply (find_days_entries rising 2 true); [wf_rows | simpl; lia |].
  simpl. distinct_dates.
Defined.

(** *** [find_days] under rounding: which days it selects *)

Lemma offer_length b chosen c chosen' :
  offer b chosen c = Ok chosen' → length chosen' = length chosen.
Proof.
  unfold offer. intros H. apply bind_ok in H as (boundary & Hb & H).
  destruct (skip_day _ _ _); injection H as <-; [done|].
  unfold last_item in Hb. destruct (last chosen) eqn:Hlast; [|done].
  apply last_Some in Hlast as [l' ->].
  rewrite removelast_take, sort_by_change_length, !length_app. simpl.
  rewrite length_take, sort_by_change_length, !length_app. simpl. lia.
Qed.

Lemma offer_succeeds b chosen c :
  chosen ≠ [] → ∃ chosen', offer b chosen c = Ok chosen'.
Proof.
  intros Hne. unfold offer, last_item. destruct (last chosen) eqn:E.
  - simpl. destruct (skip_day _ _ _); eauto.
  - by apply last_None in E.
Qed.

(** An offer keeps the [k] first of the sorted entries seen so far, when
    the working set holds them. *)
Lemma offer_top b seen chosen c chosen' :
  chosen = take (length chosen) (sort_by_change b seen) →
  offer b chosen c = Ok chosen' →
  chosen' = take (length chosen) (sort_by_change b (seen ++ [c])).
Proof.
  intros Hchosen H. unfold offer in H.
  apply bind_ok in H as (boundary & Hb & H).
  unfold last_item in Hb. destruct (last chosen) eqn:Hlast; [|done].
  injection Hb as ->.
  assert (sorted_by_change b chosen) as Hsorted.
  { rewrite Hchosen. eapply StronglySorted_app_1_l.
    rewrite take_drop. apply sort_by_change_sorted. }
  rewrite sort_by_change_snoc, take_insert_back, <- Hchosen.
  assert (take (length chosen) (insert_back b c chosen)
          = removelast (insert_back b c chosen)) as ->.
  { by rewrite removelast_take, insert_back_length. }
  assert (skip_day b (change_percentage c) boundary
          = ranks_before b (change_percentage boundary) (change_percentage c))
    as Hskip by by destruct b.
  rewrite Hskip in H.
  destruct (ranks_before b (change_percentage boundary) _) eqn:E;
    injection H as <-.
  - rewrite (insert_back_skipped b c chosen boundary) by done.
    by rewrite removelast_last.
  - by rewrite sort_by_change_snoc, (sort_by_change_sorted_id b chosen).
Qed.

(** An offer never loses the best: what was covered stays covered. *)
Lemma offer_covered b seen chosen c chosen' :
  covered b seen chosen →
  offer b chosen c = Ok chosen' →
  covered b (seen ++ [c]) chosen'.
Proof.
  intros Hcov H. unfold offer in H.
  apply bind_ok in H as (boundary & Hb & H).
  unfold last_item in Hb. destruct (last chosen) eqn:Hlast; [|done].
  injection Hb as ->.
  assert (skip_day b (change_percentage c) boundary
          = ranks_before b (change_percentage boundary) (change_percentage c))
    as Hskip by by destruct b.
  rewrite Hskip in H.
  destruct (ranks_before b (change_percentage boundary) _) eqn:E;
    injection H as <-; intros p Hp.
  - apply elem_of_app in Hp as [Hp|Hp]; [by apply Hcov|].
    apply list_elem_of_singleton in Hp as ->. exists boundary. split.
    + by apply last_Some_elem_of.
    + by apply ranks_before_asym.
  - assert (∃ q, q ∈ sort_by_change b (chosen ++ [c]) ∧ in_order b q p)
      as (q & Hq & Hqp).
    { apply elem_of_app in Hp as [Hp|Hp].
      - destruct (Hcov p Hp) as (q & Hq & Hqp). exists q. split; [|done].
        rewrite sort_by_change_perm. apply elem_of_app. by left.
      - apply list_elem_of_singleton in Hp as ->. exists c.
        split; [|apply in_order_refl].
        rewrite sort_by_change_perm. apply elem_of_app. right. by left. }
    destruct (removelast_covers b (sort_by_change b (chosen ++ [c])) q)
      as (q' & Hq' & Hq'q); [apply sort_by_change_sorted| |done|].
    + rewrite sort_by_change_length, length_app. simpl.
      apply last_Some in Hlast as [? ->]. rewrite length_app. simpl. lia.
    + exists q'. split; [done|]. by apply in_order_trans with q.
Qed.

Section rounded_facts.
Variable fl : Q → Q.

Lemma day_change_fl_ok close_price ref :
  nonzero ref →
  day_change_fl fl close_price ref
  = Ok (fl (fl (close_price - ref) / ref))%Q.
Proof.
  intros Href. unfold day_change_fl.
  destruct (Qeq_bool ref 0) eqn:E; [|done]. by apply Qeq_bool_iff in E.
Qed.

Lemma day_change_fl_inv close_price ref pct :
  day_change_fl fl close_price ref = Ok pct →
  pct = (fl (fl (close_price - ref) / ref))%Q.
Proof.
  unfold day_change_fl. destruct (Qeq_bool ref 0); [done|]. by intros [= <-].
Qed.

(** One iteration is an offer of the computed performance. *)
Lemma scan_day_fl_offer b chosen ref day chosen' ref' :
  scan_day_fl fl b (chosen, ref) day = Ok (chosen', ref') →
  ref' = row_close day ∧ offer b chosen (computed fl day ref) = Ok chosen'.
Proof.
  unfold scan_day_fl, offer. intros H.
  apply bind_ok in H as (pct & Hpct & H).
  apply day_change_fl_inv in Hpct as ->.
  destruct (last_item chosen) as [boundary|e]; [|done]. simpl in *.
  by destruct (skip_day _ _ _); injection H as <- <-.
Qed.

Lemma scan_day_fl_succeeds b chosen ref day :
  nonzero ref → chosen ≠ [] →
  ∃ chosen', scan_day_fl fl b (chosen, ref) day = Ok (chosen', row_close day).
Proof.
  intros Href Hne. unfold scan_day_fl.
  rewrite day_change_fl_ok by done. simpl. unfold last_item.
  destruct (last chosen) eqn:E; [|by apply last_None in E].
  simpl. destruct (skip_day _ _ _); eauto.
Qed.

Lemma fill_days_fl_inv k reader chosen ref reader' chosen' ref' :
  fill_days_fl fl k reader chosen ref = Ok (reader', chosen', ref') →
  (k ≤ length reader)%nat ∧ reader' = drop k reader ∧
  chosen' = chosen ++ changes_from_fl fl ref (take k reader) ∧
  changes_from_fl fl ref reader
    = changes_from_fl fl ref (take k reader) ++ changes_from_fl fl ref' reader'.
Proof.
  revert reader chosen ref.
  induction k as [|k IH]; intros reader chosen ref; simpl.
  - intros [= <- <- <-]. rewrite app_nil_r. repeat split; lia.
  - destruct reader as [|day reader]; [done|].
    intros H. apply bind_ok in H as (pct & Hpct & H).
    apply day_change_fl_inv in Hpct as ->.
    apply IH in H as (Hk & -> & -> & Hch). simpl.
    repeat split; [lia | by rewrite <- app_assoc | by rewrite Hch].
Qed.

Lemma fill_days_fl_succeeds k reader chosen ref :
  Forall wf_row reader → (0 < ref)%Q → (k ≤ length reader)%nat →
  ∃ chosen' ref',
    fill_days_fl fl k reader chosen ref = Ok (drop k reader, chosen', ref') ∧
    (0 < ref')%Q.
Proof.
  revert reader chosen ref.
  induction k as [|k IH]; intros reader chosen ref Hwf Href Hk; simpl.
  - eauto.
  - destruct reader as [|day reader]; simpl in Hk; [lia|].
    apply Forall_cons in Hwf as [[_ Hclose] Hwf].
    rewrite day_change_fl_ok by by apply Qpos_nonzero. simpl.
    apply IH; [done..|lia].
Qed.

Lemma scan_days_fl_succeeds b reader chosen ref :
  Forall wf_row reader → (0 < ref)%Q → chosen ≠ [] →
  ∃ st, scan_days_fl fl b reader (chosen, ref) = Ok st.
Proof.
  revert chosen ref.
  induction reader as [|day reader IH]; intros chosen ref Hwf Href Hne;
    [simpl; eauto|].
  change (scan_days_fl fl b (day :: reader) (chosen, ref))
    with (scan_day_fl fl b (chosen, ref) day ≫= scan_days_fl fl b reader).
  apply Forall_cons in Hwf as [[_ Hclose] Hwf].
  destruct (scan_day_fl_succeeds b chosen ref day) as [chosen' Hday];
    [by apply Qpos_nonzero|done|].
  rewrite Hday. simpl. apply IH; [done..|].
  apply scan_day_fl_offer in Hday as [_ Hday%offer_length].
  intros ->. destruct chosen; simpl in *; congruence.
Qed.

Lemma scan_days_fl_top b reader seen chosen ref chosen' ref' :
  chosen = take (length chosen) (sort_by_change b seen) →
  scan_days_fl fl b reader (chosen, ref) = Ok (chosen', ref') →
  chosen' = take (length chosen)
              (sort_by_change b (seen ++ changes_from_fl fl ref reader)).
Proof.
  revert seen chosen ref.
  induction reader as [|day reader IH]; intros seen chosen ref Hchosen H.
  - injection H as <- <-. by rewrite app_nil_r.
  - change (scan_days_fl fl b (day :: reader) (chosen, ref))
      with (scan_day_fl fl b (chosen, ref) day ≫= scan_days_fl fl b reader)
      in H.
    apply bind_ok in H as ([chosen1 ref1] & Hday & H).
    apply scan_day_fl_offer in Hday as [-> Hday].
    pose proof (offer_length _ _ _ _ Hday) as Hlen.
    apply (offer_top b seen) in Hday; [|done].
    apply IH with (seen := seen ++ [computed fl day ref]) in H.
    + rewrite Hlen in H. simpl. by rewrite <- app_assoc in H.
    + by rewrite Hlen.
Qed.

Lemma scan_days_fl_covered b reader seen chosen ref chosen' ref' :
  covered b seen chosen →
  scan_days_fl fl b reader (chosen, ref) = Ok (chosen', ref') →
  covered b (seen ++ changes_from_fl fl ref reader) chosen'.
Proof.
  revert seen chosen ref.
  induction reader as [|day reader IH]; intros seen chosen ref Hcov H.
  - injection H as <- <-. by rewrite app_nil_r.
  - change (scan_days_fl fl b (day :: reader) (chosen, ref))
      with (scan_day_fl fl b (chosen, ref) day ≫= scan_days_fl fl b reader)
      in H.
    apply bind_ok in H as ([chosen1 ref1] & Hday & H).
    apply scan_day_fl_offer in Hday as [-> Hday].
    apply (offer_covered b seen) in Hday; [|done].
    apply (IH _ _ _ Hday) in H. simpl. by rewrite <- app_assoc in H.
Qed.

Lemma scan_days_fl_length b reader chosen ref chosen' ref' :
  scan_days_fl fl b reader (chosen, ref) = Ok (chosen', ref') →
  length chosen' = length chosen.
Proof.
  revert chosen ref.
  induction reader as [|day reader IH]; intros chosen ref H.
  - by injection H as <- <-.
  - change (scan_days_fl fl b (day :: reader) (chosen, ref))
      with (scan_day_fl fl b (chosen, ref) day ≫= scan_days_fl fl b reader)
      in H.
    apply bind_ok in H as ([chosen1 ref1] & Hday & H).
    apply scan_day_fl_offer in Hday as [_ Hday%offer_length].
    apply IH in H. congruence.
Qed.

Lemma changes_from_fl_take q rows j :
  take j (changes_from_fl fl q rows) = changes_from_fl fl q (take j rows).
Proof.
  revert q j. induction rows as [|r rows IH]; intros q [|j]; simpl;
    f_equal; auto.
Qed.

Lemma changes_from_fl_length q rows :
  length (changes_from_fl fl q rows) = length rows.
Proof. revert q. induction rows; intros; simpl; auto. Qed.

(** What a returning call went through: the seeds are the first changes
    computed, and the comparison loop ran from them over the rest. *)
Lemma find_days_fl_inv rows n b l :
  find_days_fl fl rows n b = Ok l → n ≠ 0%Z →
  ∃ seeds rest ref ref',
    seeds = take (S (Z.to_nat (n - 1))) (changes_fl fl rows) ∧
    length seeds = S (Z.to_nat (n - 1)) ∧
    changes_fl fl rows = seeds ++ changes_from_fl fl ref rest ∧
    scan_days_fl fl b rest (seeds, ref) = Ok (l, ref').
Proof.
  unfold find_days_fl. intros H Hn.
  destruct (Z.eqb_spec n 0) as [|_]; [done|].
  destruct rows as [|first_day reader]; [done|].
  apply bind_ok in H as (pct & Hpct & H).
  apply day_change_fl_inv in Hpct as ->.
  apply bind_ok in H as ([[reader1 chosen1] ref1] & Hfill & H).
  apply bind_ok in H as ([chosen2 ref2] & Hscan & H).
  injection H as <-.
  apply fill_days_fl_inv in Hfill as (Hk & -> & -> & Hch).
  eexists _, _, _, _. split_and!; [| | |exact Hscan].
  - simpl. by rewrite changes_from_fl_take.
  - rewrite length_app, changes_from_fl_length, length_take. simpl. lia.
  - simpl. unfold computed. by rewrite Hch.
Qed.

Lemma find_days_fl_succeeds rows n b :
  Forall wf_row rows → (1 ≤ n ≤ Z.of_nat (length rows))%Z →
  ∃ l, find_days_fl fl rows n b = Ok l.
Proof.
  intros Hwf Hn. unfold find_days_fl.
  destruct (Z.eqb_spec n 0) as [|_]; [lia|].
  destruct rows as [|first_day reader]; simpl in Hn; [lia|].
  apply Forall_cons in Hwf as [[Hopen _] Hwf].
  rewrite day_change_fl_ok by by apply Qpos_nonzero. simpl.
  destruct (fill_days_fl_succeeds (Z.to_nat (n - 1)) reader
              [mkDayPerf (row_date first_day)
                 (fl (fl (row_close first_day - row_open first_day)
                      / row_open first_day))%Q]
              (row_open first_day) Hwf Hopen)
    as (chosen1 & ref1 & Hfill & Hpos); [lia|].
  rewrite Hfill. simpl.
  destruct (scan_days_fl_succeeds b (drop (Z.to_nat (n - 1)) reader)
              chosen1 ref1)
    as [[chosen2 ref2] Hscan]; [by apply Forall_drop | done | |].
  - apply fill_days_fl_inv in Hfill as (_ & _ & -> & _). by destruct reader.
  - rewrite Hscan. simpl. eauto.
Qed.

Lemma find_days_fl_top_k rows n b l :
  (1 ≤ n)%Z →
  sorted_by_change b (take (Z.to_nat n) (changes_fl fl rows)) →
  find_days_fl fl rows n b = Ok l →
  l = top_k_fl fl b (Z.to_nat n) rows.
Proof.
  intros Hn Hseed H.
  replace (Z.to_nat n) with (S (Z.to_nat (n - 1))) in * by lia.
  apply find_days_fl_inv in H as (seeds & rest & ref & ref' & Hseeds & Hlen
                                  & Hall & Hscan); [|lia].
  rewrite <- Hseeds in Hseed.
  apply (scan_days_fl_top b rest seeds) in Hscan.
  - rewrite Hscan, Hlen. unfold top_k_fl. by rewrite Hall.
  - by rewrite sort_by_change_sorted_id, firstn_all.
Qed.

Lemma find_days_fl_covered rows n b l :
  find_days_fl fl rows n b = Ok l → n ≠ 0%Z →
  covered b (changes_fl fl rows) l.
Proof.
  intros H Hn.
  apply find_days_fl_inv in H as (seeds & rest & ref & ref' & _ & _
                                  & Hall & Hscan); [|done].
  rewrite Hall. apply (scan_days_fl_covered b rest seeds) in Hscan; [done|].
  intros p Hp. exists p. split; [done|apply in_order_refl].
Qed.

End rounded_facts.

(** With nothing rounded the functions are the exact ones. *)
Lemma find_days_fl_exact rows n b :
  find_days_fl (λ q, q) rows n b = find_days rows n b.
Proof.
  assert (∀ x y, day_change_fl (λ q, q) x y = day_change x y) as Hd by done.
  assert (∀ k reader chosen ref,
            fill_days_fl (λ q, q) k reader chosen ref
            = fill_days k reader chosen ref) as Hfill.
  { induction k as [|k IH]; intros [|day reader] chosen ref; simpl;
      try done.
    all: rewrite Hd; destruct (day_change _ _); simpl; [apply IH|done]. }
  assert (∀ reader st,
            scan_days_fl (λ q, q) b reader st = scan_days b reader st)
    as Hscan.
  { induction reader as [|day reader IH]; intros [chosen ref]; [done|].
    simpl. rewrite Hd.
    destruct (day_change _ _); simpl; [|done].
    destruct (last_item chosen); simpl; [|done].
    destruct (skip_day _ _ _); simpl; apply IH. }
  unfold find_days_fl, find_days. destruct (n =? 0)%Z; [done|].
  destruct rows as [|first_day reader]; [done|].
  rewrite Hd. unfold day_change. destruct (fdiv _ _); simpl; [|done].
  rewrite Hfill. destruct (fill_days _ _ _ _) as [[[r c] q]|]; simpl; [|done].
  by rewrite Hscan.
Qed.

(** X7. Whatever the rounding of the arithmetic: on positive prices and
    for [1 <= n <= length], when the first [n] computed changes are in the
    order of the mode, [find_days] returns the brute-force selection, the
    first [n] of the stably sorted computed changes of the whole series. *)
Theorem find_days_fl_ordered_seeds fl rows n b :
  Forall wf_row rows → (1 ≤ n ≤ Z.of_nat (length rows))%Z →
  sorted_by_change b (take (Z.to_nat n) (changes_fl fl rows)) →
  find_days_fl fl rows n b = Ok (top_k_fl fl b (Z.to_nat n) rows).
Proof.
  intros Hwf Hn Hseed.
  destruct (find_days_fl_succeeds fl rows n b Hwf Hn) as [l Hl].
  rewrite Hl. f_equal. eapply find_days_fl_top_k; [|done..]. lia.
Qed.

Lemma find_days_fl_ordered_seeds_witness :
  find_days_fl to_whole rising 2 true
  = Ok (top_k_fl to_whole true (Z.to_nat 2) rising).
Proof.
  apply (find_days_fl_ordered_seeds to_whole rising 2 true);
    [wf_rows | simpl; lia |].
  simpl. repeat constructor.
Defined.

(** X8. Whatever the rounding: with [n = 1] the one entry returned is
    the first of the stably sorted computed changes, a record of the
    series whose computed change no record beats: the largest when
    looking for the best day, the smallest for the worst, and the first
    seen of those that tie. *)
Theorem find_days_fl_single_extreme fl rows b l :
  find_days_fl fl rows 1 b = Ok l →
  l = top_k_fl fl b 1 rows ∧
  ∃ q, l = [q] ∧ q ∈ changes_fl fl rows ∧
       ∀ p, p ∈ changes_fl fl rows → at_least_as_extreme b q p.
Proof.
  intros H. split.
  { apply (find_days_fl_top_k fl rows 1 b l); [done| |done].
    destruct rows as [|first_day rows]; simpl; repeat constructor. }
  pose proof (find_days_fl_covered fl rows 1 b l H) as Hcov.
  pose proof (find_days_fl_inv fl rows 1 b l H)
    as (seeds & rest & ref & ref' & Hseeds & Hlen & _ & Hscan); [done|].
  apply scan_days_fl_length in Hscan. rewrite Hlen in Hscan.
  destruct l as [|q [|q' l]]; simpl in Hscan; try discriminate.
  exists q. split; [done|].
  assert (∀ p, p ∈ changes_fl fl rows → at_least_as_extreme b q p) as Hbest.
  { intros p Hp. destruct (Hcov ltac:(done) p Hp) as (q' & Hq' & Hle).
    apply list_elem_of_singleton in Hq' as ->.
    by apply at_least_as_extreme_in_order. }
  split; [|done].
  assert ([q] = top_k_fl fl b 1 rows) as Htop.
  { apply (find_days_fl_top_k fl rows 1 b [q]); [done| |done].
    destruct rows as [|first_day rows]; simpl; repeat constructor. }
  unfold top_k_fl in Htop.
  assert (q ∈ sort_by_change b (changes_fl fl rows)) as Hq.
  { rewrite <- (take_drop 1 (sort_by_change b (changes_fl fl rows))).
    apply elem_of_app. left. rewrite <- Htop. by left. }
  by rewrite sort_by_change_perm in Hq.
Qed.

Lemma find_days_fl_single_extreme_witness :
  ∃ l, find_days_fl to_whole scenario 1 false = Ok l ∧
       l = top_k_fl to_whole false 1 scenario ∧
       ∃ q, l = [q] ∧ q ∈ changes_fl to_whole scenario ∧
            ∀ p, p ∈ changes_fl to_whole scenario →
                 at_least_as_extreme false q p.
Proof.
  eexists. split; [reflexivity|].
  apply (find_days_fl_single_extreme to_whole scenario false). reflexivity.
Defined.

(** X9. Whatever the rounding and whatever the order of the seeds, the
    most extreme day is never lost: for every record of the series the
    result holds an entry whose computed change ranks at least as well. *)
Theorem find_days_fl_keeps_extreme fl rows n b l :
  find_days_fl fl rows n b = Ok l → n ≠ 0%Z →
  ∀ p, p ∈ changes_fl fl rows → ∃ q, q ∈ l ∧ at_least_as_extreme b q p.
Proof.
  intros H Hn p Hp.
  destruct (find_days_fl_covered fl rows n b l H Hn p Hp) as (q & Hq & Hle).
  exists q. split; [done|]. by apply at_least_as_extreme_in_order.
Qed.

Lemma find_days_fl_keeps_extreme_witness :
  ∃ l, find_days_fl to_whole rising 2 true = Ok l ∧
       ∀ p, p ∈ changes_fl to_whole rising →
            ∃ q, q ∈ l ∧ at_least_as_extreme true q p.
Proof.
  eexists. split; [reflexivity|].
  apply (find_days_fl_keeps_extreme to_whole rising 2 true);
    [reflexivity|lia].
Defined.

(** X10. The result is in the order of the mode unless it is the seed
    list itself: the first [n] changes, returned in file order when no
    later day was inserted. *)
Theorem find_days_sorted_or_seeds rows n b l :
  find_days rows n b = Ok l → (1 ≤ n)%Z →
  l = take (Z.to_nat n) (changes rows) ∨ sorted_by_change b l.
Proof.
  unfold find_days. intros H Hn.
  destruct (Z.eqb_spec n 0) as [|_]; [lia|].
  destruct rows as [|first_day reader]; [done|].
  apply bind_ok in H as (pct & Hpct & H). apply fdiv_inv in Hpct as [-> _].
  apply bind_ok in H as ([[reader1 chosen1] last1] & Hfill & H).
  apply bind_ok in H as ([chosen2 last2] & Hscan & H).
  injection H as <-.
  apply fill_days_inv in Hfill as (_ & -> & -> & _).
  apply scan_days_sorted_or_same in Hscan as [->|Hsorted]; [left|by right].
  replace (Z.to_nat n) with (S (Z.to_nat (n - 1))) by lia.
  simpl. by rewrite changes_from_take.
Qed.

Lemma find_days_sorted_or_seeds_witness :
  ∃ l, find_days tying 3 true = Ok l ∧
       (l = take (Z.to_nat 3) (changes tying) ∨ sorted_by_change true l).
Proof.
  eexists. split; [reflexivity|].
  apply (find_days_sorted_or_seeds tying 3 true); [reflexivity|lia].
Defined.

(** *** [perf_if_missing_days] *)

Lemma closing_cons first_close day reader :
  closing first_close (day :: reader) = closing (row_close day) reader.
Proof.
  unfold closing. destruct reader as [|day' reader]; [done|].
  rewrite last_cons_cons. destruct (last (day' :: reader)) eqn:E; [done|].
  by apply last_None in E.
Qed.

Lemma replay_day_last_close D st day :
  last_close_price (replay_day D st day) = row_close day.
Proof. unfold replay_day. by destruct (bool_decide _). Qed.

Lemma replay_last_close D reader st :
  last_close_price (replay D reader st)
  = closing (last_close_price st) reader.
Proof.
  revert st. induction reader as [|day reader IH]; intros st; [done|].
  rewrite closing_cons, <- (replay_day_last_close D st day). apply IH.
Qed.

(** Rows without a missed date leave the value as it is. *)
Lemma replay_clear D reader st :
  (∀ day, day ∈ reader → row_date day ∉ D) →
  missed_yesterday st = false →
  value (replay D reader st) = value st ∧
  missed_yesterday (replay D reader st) = false.
Proof.
  intros Hclear Hst. rewrite (replay_agree D ∅).
  - by apply replay_no_missed.
  - intros day Hday. split; [by intros ?%Hclear|set_solver].
Qed.

(** A run of missed days adds the carried close and the close of each of
    its days but the last. *)
Lemma replay_run D run st :
  run ≠ [] → (∀ day, day ∈ run → row_date day ∈ D) →
  (value (replay D run st)
   == value st + last_close_price st + Qsum (map row_close (removelast run)))%Q ∧
  missed_yesterday (replay D run st) = true.
Proof.
  revert st. induction run as [|day run IH]; intros st Hne Hrun; [done|].
  assert (replay D (day :: run) st
          = replay D run (mkReplay (value st + last_close_price st)%Q true
                            (row_close day))) as ->.
  { unfold replay. simpl. rewrite replay_day_missed; [done|].
    apply Hrun. by left. }
  destruct run as [|day' run].
  - simpl. split; [|done]. unfold Qsum. simpl. by rewrite Qplus_0_r.
  - destruct (IH (mkReplay (value st + last_close_price st)%Q true
                     (row_close day))) as [Hvalue Hflag]; [done| |].
    + intros d Hd. apply Hrun. by right.
    + split; [|done]. rewrite Hvalue.
      change (removelast (day :: day' :: run))
        with (day :: removelast (day' :: run)).
      unfold Qsum. simpl. ring.
Qed.

(** X11. [perf_if_missing_days] fails only on the empty series
    ([StopIteration]) and on a zero first open ([ZeroDivisionError]);
    otherwise it returns, and the held fraction is the last close against
    the first open, whatever days are missed. *)
Theorem perf_if_missing_days_outcome rows missed_days :
  perf_if_missing_days rows missed_days
  = match rows with
    | [] => Raise StopIteration
    | first_day :: reader =>
        if Qeq_bool (row_open first_day) 0 then Raise ZeroDivisionError
        else Ok ((closing (row_close first_day) reader - row_open first_day)
                 / row_open first_day,
                 (final_value (dates_of missed_days) first_day reader
                  - row_open first_day) / row_open first_day)%Q
    end.
Proof.
  destruct rows as [|first_day reader]; [done|].
  unfold perf_if_missing_days, perf_with_dates, final_value, fdiv.
  rewrite replay_last_close. simpl.
  by destruct (Qeq_bool (row_open first_day) 0).
Qed.

(** X12. Missed dates that are not the date of a record after the first
    change nothing: the adjusted fraction equals the held one. This covers
    a missed first day and dates the file does not have. *)
Theorem perf_no_later_missed first_day reader missed_days :
  nonzero (row_open first_day) →
  (∀ day, day ∈ reader → row_date day ∉ map date missed_days) →
  ∃ held adjusted,
    perf_if_missing_days (first_day :: reader) missed_days
    = Ok (held, adjusted) ∧
    (adjusted == held)%Q.
Proof.
  intros Hopen Hclear. unfold perf_if_missing_days, perf_with_dates.
  rewrite !fdiv_ok by done. simpl. eexists _, _. split; [done|].
  destruct (replay_clear (dates_of missed_days) reader
              (mkReplay 0 false (row_close first_day))) as [Hvalue _]; [|done|].
  - intros day Hday Hin. apply (Hclear day Hday).
    unfold dates_of in Hin. by apply elem_of_list_to_set in Hin.
  - rewrite Hvalue. simpl. by rewrite Qplus_0_l.
Qed.

Lemma perf_no_later_missed_witness :
  ∃ held adjusted,
    perf_if_missing_days scenario [mkDayPerf "d1" 0; mkDayPerf "d9" 0]
    = Ok (held, adjusted) ∧
    (adjusted == held)%Q.
Proof.
  apply (perf_no_later_missed (mkRow "d1" 100 110)
           [mkRow "d2" 110 90; mkRow "d3" 90 120]
           [mkDayPerf "d1" 0; mkDayPerf "d9" 0]).
  - intros H. discriminate H.
  - intros day Hday. simpl.
    repeat (apply elem_of_cons in Hday as [->|Hday];
            [rewrite !not_elem_of_cons; split_and!;
             first [done | apply not_elem_of_nil]|]).
    by apply elem_of_nil in Hday.
Defined.

(** X13. Only the set of missed dates counts: two lists of missed days
    with the same dates, in any order, with repeats and with any change
    values, give the same outcome. *)
Theorem perf_same_dates rows missed_days missed_days' :
  (∀ d, d ∈ map date missed_days ↔ d ∈ map date missed_days') →
  perf_if_missing_days rows missed_days
  = perf_if_missing_days rows missed_days'.
Proof.
  intros Hsame. unfold perf_if_missing_days. f_equal.
  unfold dates_of. apply set_eq. intros d.
  by rewrite !elem_of_list_to_set.
Qed.

Lemma perf_same_dates_witness :
  perf_if_missing_days steady
    [mkDayPerf "d2" 0; mkDayPerf "d3" 0; mkDayPerf "d2" 5]
  = perf_if_missing_days steady [mkDayPerf "d3" 1; mkDayPerf "d2" 1].
Proof.
  apply (perf_same_dates steady). intros d. simpl.
  rewrite !elem_of_cons, !elem_of_nil. tauto.
Defined.

Ltac in_dates :=
  simpl; rewrite elem_of_union, !elem_of_singleton; tauto.

Lemma replay_app D reader1 reader2 st :
  replay D (reader1 ++ reader2) st = replay D reader2 (replay D reader1 st).
Proof. unfold replay. by rewrite foldl_app. Qed.

(** X14. A run of missed days inside the series, with no other missed
    day: the final value is the close before the run, plus the close of
    each day of the run but its last, minus the open of the day after the
    run, plus the last close of the series. For a single missed day that
    is: sold at the previous close, bought back at the next open. *)
Theorem final_value_missed_run D first_day pre run next_day post :
  run ≠ [] →
  (∀ day, day ∈ run → row_date day ∈ D) →
  (∀ day, day ∈ pre ++ next_day :: post → row_date day ∉ D) →
  (final_value D first_day (pre ++ run ++ next_day :: post)
   == closing (row_close first_day) pre
      + Qsum (map row_close (removelast run))
      - row_open next_day
      + closing (row_close next_day) post)%Q.
Proof.
  intros Hne Hrun Hclear. unfold final_value.
  rewrite !replay_app.
  set (st0 := mkReplay 0 false (row_close first_day)).
  set (st1 := replay D pre st0).
  destruct (replay_clear D pre st0) as [Hv1 Hf1]; [|done|].
  { intros day Hday. apply Hclear. apply elem_of_app. by left. }
  pose proof (replay_last_close D pre st0) as Hc1.
  fold st1 in Hv1, Hf1, Hc1. simpl in Hv1, Hc1.
  set (st2 := replay D run st1).
  destruct (replay_run D run st1 Hne Hrun) as [Hv2 Hf2].
  fold st2 in Hv2, Hf2.
  assert (replay D (next_day :: post) st2
          = replay D post (mkReplay (value st2 - row_open next_day)%Q false
                             (row_close next_day))) as ->.
  { unfold replay. simpl. f_equal. unfold replay_day.
    rewrite bool_decide_eq_false_2, Hf2; [done|].
    apply Hclear. apply elem_of_app. right. by left. }
  set (st3 := mkReplay _ false _).
  destruct (replay_clear D post st3) as [Hv4 _]; [|done|].
  { intros day Hday. apply Hclear. apply elem_of_app. right. by right. }
  rewrite replay_last_close, Hv4. simpl.
  rewrite Hv2, Hv1, Hc1. ring.
Qed.

Lemma final_value_missed_run_witness :
  (final_value {["d2"; "d3"]} (mkRow "d1" 100 110)
     ([] ++ [mkRow "d2" 110 120; mkRow "d3" 120 130]
         ++ mkRow "d4" 130 140 :: [])
   == closing 110 []
      + Qsum (map row_close (removelast [mkRow "d2" 110 120; mkRow "d3" 120 130]))
      - 130
      + closing 140 [])%Q.
Proof.
  apply (final_value_missed_run {["d2"; "d3"]} (mkRow "d1" 100 110) []
           [mkRow "d2" 110 120; mkRow "d3" 120 130] (mkRow "d4" 130 140) []).
  - done.
  - intros day Hday.
    repeat (apply elem_of_cons in Hday as [->|Hday]; [in_dates|]).
    by apply elem_of_nil in Hday.
  - intros day Hday. simpl in Hday.
    apply list_elem_of_singleton in Hday as ->. simpl.
    rewrite not_elem_of_union, !not_elem_of_singleton. done.
Defined.

(** X15. A run of missed days that reaches the end of the series is never
    bought back: the final value is the close before the run plus the
    close of every day of the run. *)
Theorem final_value_missed_to_end D first_day pre run :
  run ≠ [] →
  (∀ day, day ∈ run → row_date day ∈ D) →
  (∀ day, day ∈ pre → row_date day ∉ D) →
  (final_value D first_day (pre ++ run)
   == closing (row_close first_day) pre + Qsum (map row_close run))%Q.
Proof.
  intros Hne Hrun Hclear. unfold final_value. rewrite replay_app.
  set (st0 := mkReplay 0 false (row_close first_day)).
  set (st1 := replay D pre st0).
  destruct (replay_clear D pre st0 Hclear) as [Hv1 _]; [done|].
  pose proof (replay_last_close D pre st0) as Hc1.
  fold st1 in Hv1, Hc1. simpl in Hv1, Hc1.
  destruct (replay_run D run st1 Hne Hrun) as [Hv2 _].
  rewrite Hv2, Hv1, Hc1, replay_last_close.
  destruct (exists_last Hne) as (run' & z & ->).
  rewrite removelast_last. unfold closing. rewrite last_snoc. simpl.
  rewrite map_app. unfold Qsum. rewrite foldr_app. simpl.
  generalize (map row_close run'). intros l.
  assert (∀ q, (foldr Qplus q l == foldr Qplus 0 l + q)%Q) as Hfold.
  { induction l as [|x l IHl]; intros q; simpl; [ring|]. rewrite IHl. ring. }
  rewrite (Hfold (row_close z + 0)%Q). ring.
Qed.

Lemma final_value_missed_to_end_witness :
  (final_value {["d2"; "d3"]} (mkRow "d1" 100 110)
     ([] ++ [mkRow "d2" 110 90; mkRow "d3" 90 120])
   == closing 110 []
      + Qsum (map row_close [mkRow "d2" 110 90; mkRow "d3" 90 120]))%Q.
Proof.
  apply (final_value_missed_to_end {["d2"; "d3"]} (mkRow "d1" 100 110) []
           [mkRow "d2" 110 90; mkRow "d3" 90 120]).
  - done.
  - intros day Hday.
    repeat (apply elem_of_cons in Hday as [->|Hday]; [in_dates|]).
    by apply elem_of_nil in Hday.
  - intros day Hday. by apply elem_of_nil in Hday.
Defined.

(** *** [analyze] *)

(** On positive prices [find_days] either returns or runs out of rows. *)
Lemma find_days_wf_cases rows n b :
  Forall wf_row rows →
  if decide (n = 0%Z ∨ (S (Z.to_nat (n - 1)) ≤ length rows)%nat)
  then ∃ l, find_days rows n b = Ok l
  else find_days rows n b = Raise StopIteration.
Proof.
  intros Hwf. unfold find_days. destruct (Z.eqb_spec n 0) as [->|Hn].
  { rewrite decide_True by by left. eauto. }
  destruct rows as [|first_day reader].
  { rewrite decide_False; [done|]. intros [?|?]; [done|simpl in *; lia]. }
  apply Forall_cons in Hwf as [[Hopen _] Hwf].
  rewrite fdiv_ok by by apply Qpos_nonzero. simpl.
  case_decide as Hfit.
  - destruct (fill_days_succeeds (Z.to_nat (n - 1)) reader
                [mkDayPerf (row_date first_day)
                   ((row_close first_day - row_open first_day)
                    / row_open first_day)%Q]
                (row_open first_day) Hwf Hopen)
      as (chosen1 & last1 & Hfill & Hpos); [destruct Hfit; [done|lia]|].
    rewrite Hfill. simpl.
    destruct (scan_days_succeeds b (drop (Z.to_nat (n - 1)) reader)
                chosen1 last1)
      as [[chosen2 last2] Hscan]; [by apply Forall_drop | done | |].
    + apply fill_days_inv in Hfill as (_ & _ & -> & _). by destruct reader.
    + rewrite Hscan. simpl. eauto.
  - rewrite fill_days_short; [done..|]. lia.
Qed.

(** X16. With an accepted header and positive prices, [analyze] returns
    when the series is not empty and neither number of days to miss
    exceeds its length. *)
Theorem analyze_returns header rows nb nw :
  map lower header = CSV_FIELD_NAMES →
  Forall wf_row rows → rows ≠ [] →
  (nb ≤ Z.of_nat (length rows))%Z → (nw ≤ Z.of_nat (length rows))%Z →
  ∃ held adjusted, analyze (Some (header, rows)) nb nw = Ok (held, adjusted).
Proof.
  intros Hheader Hwf Hne Hnb Hnw. unfold analyze.
  apply validate_header_line_pass in Hheader. rewrite Hheader. simpl.
  assert (0 < length rows)%nat by (destruct rows; [done|simpl; lia]).
  pose proof (find_days_wf_cases rows nb true Hwf) as Hbest.
  rewrite decide_True in Hbest by lia. destruct Hbest as [best ->].
  pose proof (find_days_wf_cases rows nw false Hwf) as Hworst.
  rewrite decide_True in Hworst by lia. destruct Hworst as [worst ->].
  simpl. destruct rows as [|first_day reader]; [done|].
  apply Forall_cons in Hwf as [[Hopen _] _].
  unfold perf_if_missing_days, perf_with_dates.
  rewrite !fdiv_ok by by apply Qpos_nonzero. simpl. eauto.
Qed.

Lemma analyze_returns_witness :
  ∃ held adjusted,
    analyze (Some (["Date"; "Open"; "High"; "Low"; "Close"; "Adj Close";
                    "Volume"], steady)) 2 1
    = Ok (held, adjusted).
Proof.
  apply (analyze_returns
           ["Date"; "Open"; "High"; "Low"; "Close"; "Adj Close"; "Volume"]
           steady 2 1); [reflexivity | wf_rows | done | simpl; lia..].
Defined.

(** X17. With an accepted header and positive prices, [analyze] raises
    [StopIteration] when the series is empty or shorter than a number of
    days to miss; so it does with the default of ten best days on a file
    of fewer than ten rows. *)
Theorem analyze_runs_out_of_rows header rows nb nw :
  map lower header = CSV_FIELD_NAMES →
  Forall wf_row rows →
  rows = [] ∨ (Z.of_nat (length rows) < nb)%Z
  ∨ (Z.of_nat (length rows) < nw)%Z →
  analyze (Some (header, rows)) nb nw = Raise StopIteration.
Proof.
  intros Hheader Hwf Hshort. unfold analyze.
  apply validate_header_line_pass in Hheader. rewrite Hheader. simpl.
  pose proof (find_days_wf_cases rows nb true Hwf) as Hbest.
  case_decide as Hfit_best; [|by rewrite Hbest].
  destruct Hbest as [best ->]. simpl.
  pose proof (find_days_wf_cases rows nw false Hwf) as Hworst.
  case_decide as Hfit_worst; [|by rewrite Hworst].
  destruct Hworst as [worst ->]. simpl.
  destruct Hshort as [->|[Hshort|Hshort]]; [done|lia..].
Qed.

Lemma analyze_runs_out_of_rows_witness :
  analyze (Some (["Date"; "Open"; "High"; "Low"; "Close"; "Adj Close";
                  "Volume"], scenario)) 10 0
  = Raise StopIteration.
Proof.
  apply (analyze_runs_out_of_rows
           ["Date"; "Open"; "High"; "Low"; "Close"; "Adj Close"; "Volume"]
           scenario 10 0); [reflexivity | wf_rows |].
  right. left. simpl. lia.
Defined.

(** X18. With no day to miss on either side, [analyze] reports an
    adjusted fraction equal to the held one. *)
Theorem analyze_nothing_to_miss header first_day reader :
  map lower header = CSV_FIELD_NAMES →
  nonzero (row_open first_day) →
  ∃ held adjusted,
    analyze (Some (header, first_day :: reader)) 0 0 = Ok (held, adjusted) ∧
    (adjusted == held)%Q.
Proof.
  intros Hheader Hopen. unfold analyze.
  apply validate_header_line_pass in Hheader. rewrite Hheader. simpl.
  unfold perf_if_missing_days, perf_with_dates.
  change (dates_of []) with (∅ : gset string).
  destruct (replay_no_missed reader (mkReplay 0 false (row_close first_day)))
    as [Hvalue _]; [done|].
  rewrite !fdiv_ok by done. simpl. eexists _, _. split; [done|].
  rewrite Hvalue. simpl. by rewrite Qplus_0_l.
Qed.

Lemma analyze_nothing_to_miss_witness :
  ∃ held adjusted,
    analyze (Some (["date"; "open"; "high"; "low"; "close"; "adj close";
                    "volume"],
                   mkRow "d1" 100 110 :: [mkRow "d2" 110 90])) 0 0
    = Ok (held, adjusted) ∧
    (adjusted == held)%Q.
Proof.
  apply (analyze_nothing_to_miss
           ["date"; "open"; "high"; "low"; "close"; "adj close"; "volume"]
           (mkRow "d1" 100 110) [mkRow "d2" 110 90]); [reflexivity|].
  intros H. discriminate H.
Defined.

(** X19. Whenever [analyze] returns, the file had a header that passes
    the check and a first row with a non-zero open, and the held fraction
    is the last close against the first open: it does not depend on the
    numbers of days to miss. *)
Theorem analyze_ok_inv file nb nw held adjusted :
  analyze file nb nw = Ok (held, adjusted) →
  ∃ header first_day reader,
    file = Some (header, first_day :: reader) ∧
    map lower header = CSV_FIELD_NAMES ∧
    nonzero (row_open first_day) ∧
    held = ((closing (row_close first_day) reader - row_open first_day)
            / row_open first_day)%Q.
Proof.
  unfold analyze. intros H. destruct file as [[header rows]|]; [|done].
  apply bind_ok in H as ([] & Hheader & H).
  apply bind_ok in H as (best & _ & H). apply bind_ok in H as (worst & _ & H).
  apply validate_header_line_ok_inv in Hheader.
  destruct rows as [|first_day reader]; [done|].
  exists header, first_day, reader. split_and!; [done..| |].
  - unfold perf_if_missing_days, perf_with_dates in H.
    apply bind_ok in H as (h & Hh & _). by apply fdiv_inv in Hh as [_ ?].
  - unfold perf_if_missing_days, perf_with_dates in H.
    apply bind_ok in H as (h & Hh & H). apply fdiv_inv in Hh as [-> _].
    apply bind_ok in H as (a & _ & H). injection H as <- _.
    by rewrite replay_last_close.
Qed.

Lemma analyze_ok_inv_witness :
  ∃ header first_day reader,
    Some (["Date"; "Open"; "High"; "Low"; "Close"; "Adj Close"; "Volume"],
          scenario)
    = Some (header, first_day :: reader) ∧
    map lower header = CSV_FIELD_NAMES ∧
    nonzero (row_open first_day) ∧
    ((120 - 100) / 100)%Q
    = ((closing (row_close first_day) reader - row_open first_day)
       / row_open first_day)%Q.
Proof.
  eapply (analyze_ok_inv
            (Some (["Date"; "Open"; "High"; "Low"; "Close"; "Adj Close";
                    "Volume"], scenario)) 1 0 _ _).
  reflexivity.
Defined.
